(** * CBOWLoader: a shallow embedding of [w2v_cbow_dataloader.hpp]

    The loader turns raw text into (context, label) training windows for a
    continuous-bag-of-words model.  This development embeds the class
    [fetch::ml::CBOWLoader] as pure functions over an explicit loader record
    and checks the properties stated about it.

    Conventions.
    - [uint64_t] values are [Z] with the wrap-around of every arithmetic
      operation written out ([wrap64]); [unsigned int] parameters are
      reduced with [wrap32] where the call converts them.
    - [std::vector] is [list]; [v.size()] is [len v].  An unchecked
      [operator[]] outside the vector is undefined behaviour in C++ and is
      the fault [OutOfBounds] here; a checked [at()] throws
      [std::out_of_range], the fault [OutOfRange].
    - [std::map<std::string, ...>] is an association list kept in strictly
      increasing key order, which is the order a range-for visits it in.
    - The tensor returned by [GetNext] is an external container; it is a
      list of the stored indices before their conversion to the element
      type [T]. *)

From Stdlib Require Import ZArith Lia Bool Ascii String.
From Stdlib Require Import Sorting.Permutation Sorting.Sorted.
From Stdlib Require Import Structures.OrderedTypeEx.
From stdpp Require Import base list.

Local Open Scope Z_scope.

(** ** Machine integers *)

Definition wrap64 (x : Z) : Z := x mod 2 ^ 64.
Definition wrap32 (x : Z) : Z := x mod 2 ^ 32.

(** [v.size()] read as an unsigned 64-bit value. *)
Definition len {A} (v : list A) : Z := Z.of_nat (length v).

(** ** Faults *)

Inductive fault : Type :=
| OutOfBounds      (* unchecked operator[] past the end: undefined behaviour *)
| OutOfRange       (* checked at() past the end: std::out_of_range *)
| DivisionByZero   (* x % 0: undefined behaviour *)
| TensorIndex      (* element access outside the output tensor *)
| NotActive        (* a driver asked for a window while IsDone() held *)
| OutOfFuel.       (* an iteration bound of the model was exhausted *)

Inductive result (A : Type) : Type :=
| Ok (a : A)
| Fault (f : fault).
Arguments Ok {A} a.
Arguments Fault {A} f.

(** Faults propagate through sequencing; [x ← m; k] is stdpp's notation
    for [mbind]. *)
#[global] Instance result_bind : MBind result := fun A B k m =>
  match m with
  | Ok a => k a
  | Fault f => Fault f
  end.

(** [v[i]] and [v.at(i)]. *)
Definition index {A} (v : list A) (i : Z) : result A :=
  match v !! Z.to_nat i with
  | Some x => Ok x
  | None => Fault OutOfBounds
  end.

Definition at_ {A} (v : list A) (i : Z) : result A :=
  match v !! Z.to_nat i with
  | Some x => Ok x
  | None => Fault OutOfRange
  end.

(** ** The loader state *)

(** [std::map<std::string, std::pair<uint64_t, uint64_t>>]: word to
    (index, frequency), in increasing key order. *)
Definition vocab_map : Type := list (string * (Z * Z)).

Record CBOWLoader : Type := mkCBOWLoader {
  currentSentence_ : Z;
  currentWord_ : Z;
  window_size_ : Z;
  vocab_ : vocab_map;
  data_ : list (list Z)
}.

(** The constructor [CBOWLoader(window_size)]. *)
Definition CBOWLoader_new (window_size : Z) : CBOWLoader :=
  {| currentSentence_ := 0;
     currentWord_ := 0;
     window_size_ := window_size;
     vocab_ := [];
     data_ := [] |}.

Definition set_cursor (l : CBOWLoader) (cs cw : Z) : CBOWLoader :=
  {| currentSentence_ := cs;
     currentWord_ := cw;
     window_size_ := window_size_ l;
     vocab_ := vocab_ l;
     data_ := data_ l |}.

Definition set_corpus (l : CBOWLoader) (v : vocab_map) (d : list (list Z))
  : CBOWLoader :=
  {| currentSentence_ := currentSentence_ l;
     currentWord_ := currentWord_ l;
     window_size_ := window_size_ l;
     vocab_ := v;
     data_ := d |}.

(** ** Size *)

Definition Size_step (w : Z) (size : Z) (s : list Z) : Z :=
  if len s >? wrap64 (2 * w)
  then wrap64 (size + wrap64 (len s - wrap64 (2 * w)))
  else size.

Definition Size (l : CBOWLoader) : Z :=
  fold_left (Size_step (window_size_ l)) (data_ l) 0.

(** ** IsDone *)

Definition IsDone (l : CBOWLoader) : result bool :=
  let n := len (data_ l) in
  if n =? 0 then Ok true
  else if currentSentence_ l >=? n then Ok true
  else if currentSentence_ l >=? wrap64 (n - 1) then
    (s ← at_ (data_ l) (currentSentence_ l);
     if currentWord_ l >? wrap64 (len s - wrap64 (wrap64 (2 * window_size_ l) + 1))
     then Ok true
     else Ok false)
  else Ok false.

(** ** GetNext *)

(** [Tensor t(n)] and [t.At(i) = x]. *)
Definition Tensor_new (n : Z) : list Z := replicate (Z.to_nat n) 0.

Definition Tensor_set (t : list Z) (i : Z) (x : Z) : result (list Z) :=
  if i <? len t then Ok (<[Z.to_nat i := x]> t)
  else Fault TensorIndex.

(** The body of the [for] loop of [GetNext], run [n] more times from [i]. *)
Fixpoint GetNext_fill (l : CBOWLoader) (n : nat) (i : Z) (t : list Z)
  : result (list Z) :=
  match n with
  | O => Ok t
  | S n' =>
      let cw := currentWord_ l in
      let w := window_size_ l in
      s ← index (data_ l) (currentSentence_ l);
      a ← index s (wrap64 (cw + i));
      t1 ← Tensor_set t i a;
      s2 ← index (data_ l) (currentSentence_ l);
      b ← index s2 (wrap64 (wrap64 (wrap64 (cw + w) + i) + 1));
      t2 ← Tensor_set t1 (wrap64 (i + w)) b;
      GetNext_fill l n' (wrap64 (i + 1)) t2
  end.

Definition GetNext (l : CBOWLoader) : result ((list Z * Z) * CBOWLoader) :=
  let cs := currentSentence_ l in
  let cw := currentWord_ l in
  let w := window_size_ l in
  let t0 := Tensor_new (wrap64 (w * 2)) in
  s ← index (data_ l) cs;
  label ← index s (wrap64 (cw + w));
  t ← GetNext_fill l (Z.to_nat w) 0 t0;
  let cw1 := wrap64 (cw + 1) in
  s' ← at_ (data_ l) cs;
  if cw1 >=? wrap64 (len s' - wrap64 (2 * w))
  then Ok ((t, label), set_cursor l (wrap64 (cs + 1)) 0)
  else Ok ((t, label), set_cursor l cs cw1).

(** ** SetOffset *)

(** The [while] loop of [SetOffset].  Every iteration that does not leave
    the loop increments [currentSentence_], so [S (length data_)] rounds
    always reach either the exit or an access past the end. *)
Fixpoint SetOffset_walk (fuel : nat) (d : list (list Z)) (offset cs : Z)
  : result (Z * Z) :=
  match fuel with
  | O => Fault OutOfFuel
  | S fuel' =>
      s ← index d cs;
      if offset >? len s
      then SetOffset_walk fuel' d (wrap32 (offset - len s)) (wrap64 (cs + 1))
      else Ok (offset, cs)
  end.

Definition SetOffset (offset : Z) (l : CBOWLoader) : result CBOWLoader :=
  let w := window_size_ l in
  let size := Size l in
  if size =? 0 then Fault DivisionByZero
  else
    let offset := wrap32 (wrap32 offset mod size) in
    '(offset, cs) ← SetOffset_walk (S (length (data_ l))) (data_ l) offset
                       (currentSentence_ l);
    s ← index (data_ l) cs;
    if offset <? wrap64 (len s - w)
    then Ok (set_cursor l cs offset)
    else Ok (set_cursor l (wrap64 (cs + 1)) 0).

(** ** PreprocessString *)

(** [std::isalpha], [std::tolower] and the whitespace test of [operator>>]
    in the default C locale, where only the 52 ASCII letters are
    alphabetic; a byte above 127 is not a letter and becomes a space. *)
Definition isupper (c : ascii) : bool :=
  let n := N_of_ascii c in ((65 <=? n) && (n <=? 90))%N.

Definition islower (c : ascii) : bool :=
  let n := N_of_ascii c in ((97 <=? n) && (n <=? 122))%N.

Definition isalpha (c : ascii) : bool := isupper c || islower c.

Definition tolower (c : ascii) : ascii :=
  if isupper c then ascii_of_N (N_of_ascii c + 32) else c.

Definition isspace (c : ascii) : bool :=
  let n := N_of_ascii c in ((n =? 32) || ((9 <=? n) && (n <=? 13)))%N.

(** First loop: letters are lowercased, everything else becomes a space. *)
Fixpoint normalise (s : string) : string :=
  match s with
  | EmptyString => EmptyString
  | String c s' =>
      String (if isalpha c then tolower c else " "%char) (normalise s')
  end.

(** Second loop: [ss >> word] skips whitespace and reads up to the next
    whitespace; [word] is the word read so far. *)
Fixpoint extract_words (word : string) (s : string) : list string :=
  match s with
  | EmptyString =>
      match word with
      | EmptyString => []
      | _ => [word]
      end
  | String c s' =>
      if isspace c then
        match word with
        | EmptyString => extract_words EmptyString s'
        | _ => word :: extract_words EmptyString s'
        end
      else extract_words (word ++ String c EmptyString)%string s'
  end.

Definition PreprocessString (s : string) : list string :=
  extract_words EmptyString (normalise s).

(** ** The vocabulary map *)

(** [vocab_.insert(std::make_pair(k, v))]: the map after the call and the
    value of the element the returned iterator points at (the one already
    stored under [k] when there is one, the new one otherwise). *)
Fixpoint map_insert (k : string) (v : Z * Z) (m : vocab_map)
  : vocab_map * (Z * Z) :=
  match m with
  | [] => ([(k, v)], v)
  | (k', v') :: m' =>
      match String.compare k k' with
      | Lt => ((k, v) :: m, v)
      | Eq => (m, v')
      | Gt => let '(m2, e) := map_insert k v m' in ((k', v') :: m2, e)
      end
  end.

(** [it->second.second++] on the element stored under [k]. *)
Fixpoint map_increment (k : string) (m : vocab_map) : vocab_map :=
  match m with
  | [] => []
  | (k', (i, f)) :: m' =>
      if String.eqb k k' then (k', (i, wrap64 (f + 1))) :: m'
      else (k', (i, f)) :: map_increment k m'
  end.

Fixpoint map_find (k : string) (m : vocab_map) : option (Z * Z) :=
  match m with
  | [] => None
  | (k', v) :: m' => if String.eqb k k' then Some v else map_find k m'
  end.

Definition VocabSize (l : CBOWLoader) : Z := len (vocab_ l).

Definition GetVocab (l : CBOWLoader) : vocab_map := vocab_ l.

(** ** StringsToIndexes and AddData *)

(** One round of the loop of [StringsToIndexes]. *)
Definition index_token (st : vocab_map * list Z) (s : string)
  : vocab_map * list Z :=
  let '(vocab, indexes) := st in
  let '(vocab1, value) := map_insert s (len vocab, 0) vocab in
  (map_increment s vocab1, indexes ++ [fst value]).

Definition StringsToIndexes (strings : list string) (l : CBOWLoader)
  : list Z * CBOWLoader :=
  if len strings >=? wrap64 (wrap64 (2 * window_size_ l) + 1) then
    let '(vocab, indexes) := fold_left index_token strings (vocab_ l, []) in
    (indexes, set_corpus l vocab (data_ l))
  else ([], l).

Definition AddData (s : string) (l : CBOWLoader) : bool * CBOWLoader :=
  let '(indexes, l1) := StringsToIndexes (PreprocessString s) l in
  if len indexes >=? wrap64 (wrap64 (2 * window_size_ l) + 1)
  then (true, set_corpus l1 (vocab_ l1) (data_ l1 ++ [indexes]))
  else (false, l1).

(** A sequence of [AddData] calls, return values dropped. *)
Definition ingest (ss : list string) (l : CBOWLoader) : CBOWLoader :=
  fold_left (fun l s => snd (AddData s l)) ss l.

(** ** WordFromIndex *)

Fixpoint WordFromIndex_scan (index : Z) (m : vocab_map) : string :=
  match m with
  | [] => EmptyString
  | (k, (i, _)) :: m' => if i =? index then k else WordFromIndex_scan index m'
  end.

Definition WordFromIndex (index : Z) (l : CBOWLoader) : string :=
  WordFromIndex_scan index (vocab_ l).

(** ** RemoveInfrequent *)

(** [std::map<uint64_t, std::pair<std::string, uint64_t>> reverse_vocab].
    It is only written with [reverse_vocab[k] = v] and read with
    [reverse_vocab[k]], never iterated: the newest binding of a key shadows
    the older ones, and a key without binding reads as the value-initialised
    pair. *)
Definition reverse_map : Type := list (Z * (string * Z)).

Definition reverse_assign (k : Z) (v : string * Z) (rv : reverse_map)
  : reverse_map := (k, v) :: rv.

Fixpoint reverse_read (k : Z) (rv : reverse_map) : string * Z :=
  match rv with
  | [] => (EmptyString, 0)
  | (k', v) :: rv' => if k' =? k then v else reverse_read k rv'
  end.

Definition reverse_vocab (m : vocab_map) : reverse_map :=
  fold_left (fun rv kvp => reverse_assign (fst (snd kvp))
                             (fst kvp, snd (snd kvp)) rv) m [].

(** The string built for one sentence. *)
Definition rebuild_sentence (rv : reverse_map) (min : Z) (sentence : list Z)
  : string :=
  fold_left (fun s word =>
               if snd (reverse_read word rv) >=? min
               then (s ++ (fst (reverse_read word rv) ++ " "))%string
               else s) sentence EmptyString.

Definition RemoveInfrequent (min : Z) (l : CBOWLoader) : CBOWLoader :=
  let min := wrap32 min in
  let rv := reverse_vocab (vocab_ l) in
  let new_loader :=
    fold_left (fun nl sentence => snd (AddData (rebuild_sentence rv min sentence) nl))
              (data_ l) (CBOWLoader_new (window_size_ l)) in
  set_corpus l (vocab_ new_loader) (data_ new_loader).

(** ** Reset *)

(** [std::random_shuffle] leaves the order unspecified: any permutation of
    the sentences may result. *)
Definition Reset (l l' : CBOWLoader) : Prop :=
  Permutation (data_ l) (data_ l') /\
  l' = {| currentSentence_ := 0; currentWord_ := 0;
          window_size_ := window_size_ l; vocab_ := vocab_ l;
          data_ := data_ l' |}.

(** * Specification-side definitions *)

(** The window arithmetic does not wrap: [2*window_size + 1] fits in 64
    bits, that is [window_size < 2^63].  The constructor accepts every
    [uint64_t]; for [window_size >= 2^63] the product [2 * window_size_]
    wraps and the length tests of [AddData], [Size], [IsDone] and
    [GetNext] no longer compare with [2*window_size + 1] (see
    [wide_loader] below). *)
Definition window_fits (w : Z) : Prop := 0 <= w /\ 2 * w + 1 < 2 ^ 64.

(** The corpus is addressable: the number of sentences and the number of
    stored indices each fit a [size_t], as they do for any
    [std::vector<std::vector<uint64_t>>] held in memory. *)
Definition corpus_fits (d : list (list Z)) : Prop :=
  len d + len (concat d) < 2 ^ 64.

(** Number of windows of one sentence, and of a corpus. *)
Definition windows_in (w : Z) (s : list Z) : Z := Z.max 0 (len s - 2 * w).

Fixpoint total_windows (w : Z) (d : list (list Z)) : Z :=
  match d with
  | [] => 0
  | s :: d' => windows_in w s + total_windows w d'
  end.

(** The window whose first context word sits at position [k] of [s]: the
    [w] indices before the centre [k + w], then the [w] indices after it,
    and the centre itself as label. *)
Definition window_at (w : Z) (s : list Z) (k : Z) : list Z * Z :=
  (take (Z.to_nat w) (drop (Z.to_nat k) s)
     ++ take (Z.to_nat w) (drop (Z.to_nat (k + w + 1)) s),
   nth (Z.to_nat (k + w)) s 0).

(** The cursor points at a window of sentence [s]. *)
Definition at_window (l : CBOWLoader) (s : list Z) : Prop :=
  0 <= currentSentence_ l /\
  data_ l !! Z.to_nat (currentSentence_ l) = Some s /\
  0 <= currentWord_ l /\
  currentWord_ l + 2 * window_size_ l < len s.

(** The cursor after a window of [s] has been read: one word further, or
    the start of the next sentence when no window of [s] is left. *)
Definition advance (l : CBOWLoader) (s : list Z) : CBOWLoader :=
  if currentWord_ l + 1 >=? len s - 2 * window_size_ l
  then set_cursor l (currentSentence_ l + 1) 0
  else set_cursor l (currentSentence_ l) (currentWord_ l + 1).

(** A consumer that calls [GetNext] [n] times, each time after checking
    [IsDone]; it records the cursor each window was read at. *)
Fixpoint GetNext_run (n : nat) (l : CBOWLoader)
  : result (list ((Z * Z) * (list Z * Z)) * CBOWLoader) :=
  match n with
  | O => Ok ([], l)
  | S n' =>
      done ← IsDone l;
      if (done : bool) then Fault NotActive
      else
        '(p, l1) ← GetNext l;
        '(ps, l2) ← GetNext_run n' l1;
        Ok (((currentSentence_ l, currentWord_ l), p) :: ps, l2)
  end.

(** The windows of sentence number [i], left to right, each with its
    cursor position; and those of a corpus whose first sentence has
    number [i], sentence after sentence. *)
Definition sentence_windows (w : Z) (i : Z) (s : list Z) (k : Z)
  : list ((Z * Z) * (list Z * Z)) :=
  map (fun j => ((i, j), window_at w s j)) (seqZ k (len s - 2 * w - k)).

Fixpoint corpus_windows (w : Z) (i : Z) (d : list (list Z))
  : list ((Z * Z) * (list Z * Z)) :=
  match d with
  | [] => []
  | s :: d' => sentence_windows w i s 0 ++ corpus_windows w (i + 1) d'
  end.

(** Every stored sentence is long enough for one window. *)
Definition sentences_long (w : Z) (d : list (list Z)) : Prop :=
  Forall (fun s => 2 * w + 1 <= len s) d.

(** ** The vocabulary, seen from the token stream *)

#[global] Instance string_eq_dec : EqDecision string := String.string_dec.

Definition keys (m : vocab_map) : list string := map fst m.

Definition indices (m : vocab_map) : list Z := map (fun kv => fst (snd kv)) m.

(** The order of [std::map<std::string, ...>]: [std::string::operator<],
    a lexicographic comparison of the bytes as unsigned values. *)
Definition str_lt (a b : string) : Prop := String.compare a b = Lt.

Definition sorted_map (m : vocab_map) : Prop :=
  StronglySorted str_lt (keys m).

(** The tokens that come before the first occurrence of [word]. *)
Fixpoint before (word : string) (tk : list string) : list string :=
  match tk with
  | [] => []
  | t :: tk' => if String.eqb t word then [] else t :: before word tk'
  end.

(** The number of distinct words seen before [word] is first seen: the
    size of the vocabulary at that moment. *)
Definition first_index (tk : list string) (word : string) : Z :=
  len (remove_dups (before word tk)).

(** The number of occurrences of [word]. *)
Definition occurrences (tk : list string) (word : string) : Z :=
  Z.of_nat (count_occ String.string_dec tk word).

(** A token: a non-empty word of lowercase letters. *)
Fixpoint all_lower (s : string) : bool :=
  match s with
  | EmptyString => true
  | String c s' => islower c && all_lower s'
  end.

Definition is_token (s : string) : Prop := s <> EmptyString /\ all_lower s = true.

(** A token sequence long enough to be stored. *)
Definition accepted (w : Z) (tokens : list string) : bool :=
  2 * w + 1 <=? len tokens.

(** The token sequences of the strings that [AddData] stores, in ingestion
    order, and the stream of all their tokens. *)
Definition stored_sentences (w : Z) (ss : list string) : list (list string) :=
  List.filter (accepted w) (map PreprocessString ss).

Definition token_stream (w : Z) (ss : list string) : list string :=
  concat (stored_sentences w ss).

(** The vocabulary holds exactly the words of the stream [tk], each with
    its first-occurrence rank and its number of occurrences. *)
Definition vocab_of (m : vocab_map) (tk : list string) : Prop :=
  sorted_map m /\
  indices m ≡ₚ seqZ 0 (len m) /\
  len m = len (remove_dups tk) /\
  forall word,
    map_find word m =
      if decide (word ∈ tk)
      then Some (first_index tk word, wrap64 (occurrences tk word))
      else None.

(** Text made of lowercase letters and spaces only. *)
Fixpoint clean (s : string) : bool :=
  match s with
  | EmptyString => true
  | String c s' => (Ascii.eqb c " " || islower c) && clean s'
  end.

(** Words written one after the other, each followed by a space. *)
Fixpoint joined (ws : list string) : string :=
  match ws with
  | [] => EmptyString
  | w :: ws' => (w ++ (" " ++ joined ws'))%string
  end.

(** The loader holds the vocabulary of the stream [tk] and stores the
    sentences [D], each word encoded by its first-occurrence rank. *)
Definition loader_of (w : Z) (l : CBOWLoader) (tk : list string)
           (D : list (list string)) : Prop :=
  window_size_ l = w /\
  vocab_of (vocab_ l) tk /\
  Forall is_token tk /\
  Forall (fun ws => accepted w ws = true /\ Forall (fun x => x ∈ tk) ws) D /\
  data_ l = map (map (first_index tk)) D.

(** The states a loader can be in: built by the constructor and changed by
    the public operations.  [GetNext] and [SetOffset] count when they
    return. *)
Inductive reachable (w : Z) : CBOWLoader -> Prop :=
| reach_new : reachable w (CBOWLoader_new w)
| reach_AddData s l : reachable w l -> reachable w (snd (AddData s l))
| reach_GetNext l p l' :
    reachable w l -> GetNext l = Ok (p, l') -> reachable w l'
| reach_SetOffset l offset l' :
    reachable w l -> SetOffset offset l = Ok l' -> reachable w l'
| reach_Reset l l' : reachable w l -> Reset l l' -> reachable w l'
| reach_RemoveInfrequent min l :
    reachable w l -> reachable w (RemoveInfrequent min l).



(** A stored sentence read back as words. *)
Definition sentence_words (l : CBOWLoader) (sentence : list Z) : list string :=
  map (fun i => WordFromIndex i l) sentence.

(** The words of [ws] that occur at least [min] times in the stream [tk]
    (the count as the 64-bit frequency field holds it). *)
Definition kept (tk : list string) (min : Z) (ws : list string) : list string :=
  List.filter (fun x => min <=? wrap64 (occurrences tk x)) ws.

(** ** Example loaders *)

Definition fox_sentence : string := "the quick brown fox jumps over the lazy dog".

(** One sentence of nine words, window size 2. *)
Definition fox_loader : CBOWLoader := ingest [fox_sentence] (CBOWLoader_new 2).

(** Two sentences of three and five words, window size 1: one window and
    three windows. *)
Definition two_sentences : CBOWLoader :=
  ingest ["a b c"%string; "d e f g h"%string] (CBOWLoader_new 1).

(** The only window of a one-sentence corpus has been read. *)
Definition scanned_once : result CBOWLoader :=
  '(_, l) ← GetNext (ingest ["a b c"%string] (CBOWLoader_new 1)); Ok l.

(** Two of the three windows of a five-word sentence are read, then the
    words seen only once are pruned, which shortens that sentence to three
    words; two more sentences follow it. *)
Definition pruned_mid_scan : result CBOWLoader :=
  '(_, l1) ← GetNext (ingest ["a b c x y"%string; "a b c"%string; "a b c"%string]
                            (CBOWLoader_new 1));
  '(_, l2) ← GetNext l1;
  Ok (RemoveInfrequent 2 l2).

(** The first window of two sentences is read, then pruning drops both
    sentences. *)
Definition pruned_to_nothing : result (CBOWLoader * CBOWLoader) :=
  '(_, l) ← GetNext (ingest ["a b c"%string; "a b x"%string] (CBOWLoader_new 1));
  Ok (l, RemoveInfrequent 2 l).

(** A window size for which [2 * window_size_] wraps to 0: the length
    test of [AddData] compares with 1 and a three-word sentence is
    stored. *)
Definition wide_loader : CBOWLoader :=
  ingest ["a b c"%string] (CBOWLoader_new (2 ^ 63)).

(** The window a consumer gets after [SetOffset(k)]. *)
Definition window_after_offset (k : Z) (l : CBOWLoader) : result (list Z * Z) :=
  l1 ← SetOffset k l;
  '(p, _) ← GetNext l1;
  Ok p.

(** The windows a consumer gets from [n] calls of [GetNext]. *)
Definition windows_of_run (n : nat) (l : CBOWLoader) : result (list (list Z * Z)) :=
  '(ps, _) ← GetNext_run n l;
  Ok (map snd ps).

(** ** Further specification-side definitions *)

(** The string with every letter lowercased. *)
Fixpoint lowercase (s : string) : string :=
  match s with
  | EmptyString => EmptyString
  | String c s' => String (tolower c) (lowercase s')
  end.

(** The string holds no letter. *)
Fixpoint no_letters (s : string) : bool :=
  match s with
  | EmptyString => true
  | String c s' => negb (isalpha c) && no_letters s'
  end.

(** A one-sentence corpus after its only window has been read, as a
    loader. *)
Definition scanned_loader : CBOWLoader :=
  set_cursor (ingest ["a b c"%string] (CBOWLoader_new 1)) 1 0.

(** The loader invariant, with the token stream being exactly the words of
    the stored sentences, in some order. *)
Definition loader_exact (w : Z) (l : CBOWLoader) (tk : list string)
           (D : list (list string)) : Prop :=
  loader_of w l tk D /\ concat D ≡ₚ tk.

(** The number of times an index is stored in the corpus. *)
Definition index_count (l : CBOWLoader) (i : Z) : Z :=
  Z.of_nat (count_occ Z.eq_dec (concat (data_ l)) i).

(** [two_sentences] after a [Reset] whose shuffle happens to reverse the
    order of the sentences. *)
Definition two_sentences_shuffled : CBOWLoader :=
  {| currentSentence_ := 0;
     currentWord_ := 0;
     window_size_ := window_size_ two_sentences;
     vocab_ := vocab_ two_sentences;
     data_ := rev (data_ two_sentences) |}.

(** * Basic facts *)

Lemma wrap64_small x : 0 <= x < 2 ^ 64 -> wrap64 x = x.
Proof. intros H. unfold wrap64. apply Z.mod_small. exact H. Qed.

Lemma wrap32_small x : 0 <= x < 2 ^ 32 -> wrap32 x = x.
Proof. intros H. unfold wrap32. apply Z.mod_small. exact H. Qed.

Lemma len_nonneg {A} (v : list A) : 0 <= len v.
Proof. unfold len. lia. Qed.

Lemma len_app {A} (u v : list A) : len (u ++ v) = len u + len v.
Proof. unfold len. rewrite length_app. lia. Qed.

Lemma len_cons {A} (x : A) (v : list A) : len (x :: v) = 1 + len v.
Proof. unfold len. simpl. lia. Qed.

Lemma index_lookup {A} (v : list A) (i : Z) (n : nat) (x : A) :
  v !! n = Some x -> Z.to_nat i = n -> index v i = Ok x.
Proof. intros H E. unfold index. rewrite E, H. reflexivity. Qed.

Lemma at_lookup {A} (v : list A) (i : Z) (n : nat) (x : A) :
  v !! n = Some x -> Z.to_nat i = n -> at_ v i = Ok x.
Proof. intros H E. unfold at_. rewrite E, H. reflexivity. Qed.

Lemma index_past_end {A} (v : list A) (i : Z) :
  len v <= i -> index v i = Fault OutOfBounds.
Proof.
  intros H. unfold index, len in *.
  rewrite (lookup_ge_None_2 v (Z.to_nat i)) by lia. reflexivity.
Qed.

Lemma windows_in_le w s : 0 <= w -> 0 <= windows_in w s <= len s.
Proof. intros H. unfold windows_in. pose proof (len_nonneg s). lia. Qed.

Lemma total_windows_bounds w d :
  0 <= w -> 0 <= total_windows w d <= len (concat d).
Proof.
  intros Hw. induction d as [|s d IH]; simpl.
  - unfold len. simpl. lia.
  - rewrite len_app. pose proof (windows_in_le w s Hw). lia.
Qed.

(** ** Size *)

Lemma Size_fold w d acc :
  window_fits w -> 0 <= acc -> acc + len (concat d) < 2 ^ 64 ->
  fold_left (Size_step w) d acc = acc + total_windows w d.
Proof.
  intros [Hw0 Hw]. revert acc.
  induction d as [|s d IH]; intros acc Hacc Hfit; simpl.
  - lia.
  - simpl in Hfit. rewrite len_app in Hfit.
    pose proof (len_nonneg s) as Hs. pose proof (len_nonneg (concat d)) as Hd.
    assert (Hstep : Size_step w acc s = acc + windows_in w s).
    { unfold Size_step, windows_in.
      rewrite (wrap64_small (2 * w)) by lia.
      destruct (Z.gtb_spec (len s) (2 * w)).
      - rewrite (wrap64_small (len s - 2 * w)) by lia.
        rewrite wrap64_small by lia. lia.
      - lia. }
    rewrite Hstep.
    pose proof (windows_in_le w s Hw0).
    rewrite IH by lia. lia.
Qed.

(** ** GetNext on a cursor that points at a window *)

Lemma Tensor_set_ok (t : list Z) (i : Z) (n : nat) (x : Z) :
  Z.to_nat i = n -> 0 <= i -> (n < length t)%nat ->
  Tensor_set t i x = Ok (<[n := x]> t).
Proof.
  intros E Hi Hn. unfold Tensor_set, len.
  destruct (Z.ltb_spec i (Z.of_nat (length t))); [|lia].
  rewrite E. reflexivity.
Qed.

Section GetNextFill.
Variables (l : CBOWLoader) (s : list Z) (W K : nat).
Hypothesis Hs : data_ l !! Z.to_nat (currentSentence_ l) = Some s.
Hypothesis HW : window_size_ l = Z.of_nat W.
Hypothesis HK : currentWord_ l = Z.of_nat K.
Hypothesis Hin : (K + 2 * W < length s)%nat.
Hypothesis Hlen : len s < 2 ^ 64.

Lemma GetNext_fill_spec (n ii : nat) (t : list Z) :
  (ii + n = W)%nat -> length t = (2 * W)%nat ->
  exists t',
    GetNext_fill l n (Z.of_nat ii) t = Ok t' /\
    length t' = (2 * W)%nat /\
    forall j : nat,
      t' !! j =
        if decide (ii <= j < W)%nat then s !! (K + j)%nat
        else if decide (W + ii <= j < 2 * W)%nat then s !! (K + j + 1)%nat
        else t !! j.
Proof.
  unfold len in Hlen. revert ii t.
  induction n as [|n IH]; intros ii t Hn Ht.
  - exists t. simpl. repeat split; [exact Ht|]. intros j.
    repeat case_decide; try lia. reflexivity.
  - destruct (lookup_lt_is_Some_2 s (K + ii)%nat ltac:(lia)) as [a Ha].
    destruct (lookup_lt_is_Some_2 s (K + (W + ii) + 1)%nat ltac:(lia)) as [b Hb].
    cbn [GetNext_fill].
    rewrite (index_lookup _ _ _ _ Hs eq_refl). cbn [mbind result_bind].
    rewrite HK, HW.
    rewrite (index_lookup s (wrap64 (Z.of_nat K + Z.of_nat ii)) (K + ii)%nat a Ha)
      by (rewrite wrap64_small by lia; lia).
    cbn [mbind result_bind].
    rewrite (Tensor_set_ok t _ ii a) by lia.
    cbn [mbind result_bind].
    rewrite (wrap64_small (Z.of_nat K + Z.of_nat W)) by lia.
    rewrite (wrap64_small (Z.of_nat K + Z.of_nat W + Z.of_nat ii)) by lia.
    rewrite (wrap64_small (Z.of_nat K + Z.of_nat W + Z.of_nat ii + 1)) by lia.
    rewrite (index_lookup s _ (K + (W + ii) + 1)%nat b Hb) by lia.
    cbn [mbind result_bind].
    rewrite (Tensor_set_ok _ _ (ii + W)%nat b);
      [| rewrite wrap64_small by lia; lia | unfold wrap64; apply Z.mod_pos_bound; lia
       | rewrite length_insert; lia ].
    cbn [mbind result_bind].
    rewrite (wrap64_small (Z.of_nat ii + 1)) by lia.
    replace (Z.of_nat ii + 1) with (Z.of_nat (S ii)) by lia.
    destruct (IH (S ii) (<[(ii + W)%nat := b]> (<[ii := a]> t))) as (t' & Hrun & Hlen' & Hget).
    { lia. } { rewrite !length_insert. exact Ht. }
    exists t'. split; [exact Hrun|]. split; [exact Hlen'|].
    intros j. rewrite Hget.
    destruct (decide (j = ii)) as [->|Hne1].
    { repeat case_decide; try lia.
      rewrite list_lookup_insert_ne by lia.
      rewrite list_lookup_insert_eq by lia. rewrite Ha. reflexivity. }
    destruct (decide (j = (ii + W)%nat)) as [->|Hne2].
    { repeat case_decide; try lia.
      rewrite list_lookup_insert_eq by (rewrite length_insert; lia).
      rewrite <- Hb. f_equal. lia. }
    repeat case_decide; try lia; try reflexivity.
    rewrite !list_lookup_insert_ne by lia. reflexivity.
Qed.

Lemma GetNext_fill_window :
  GetNext_fill l W 0 (Tensor_new (wrap64 (Z.of_nat W * 2)))
  = Ok (fst (window_at (Z.of_nat W) s (Z.of_nat K))).
Proof.
  unfold len in Hlen.
  destruct (GetNext_fill_spec W 0 (Tensor_new (wrap64 (Z.of_nat W * 2))))
    as (t' & Hrun & Hlen' & Hget).
  { lia. }
  { unfold Tensor_new. rewrite length_replicate, wrap64_small by lia. lia. }
  change (Z.of_nat 0) with 0 in Hrun. rewrite Hrun. f_equal.
  unfold window_at. cbn [fst]. rewrite !Nat2Z.id.
  replace (Z.to_nat (Z.of_nat K + Z.of_nat W + 1)) with (K + W + 1)%nat by lia.
  apply list_eq. intros j. rewrite Hget.
  destruct (decide (j < W)%nat) as [Hj|Hj].
  - case_decide; [|lia].
    rewrite lookup_app_l by (rewrite length_take, length_drop; lia).
    rewrite lookup_take_lt by lia. rewrite lookup_drop. reflexivity.
  - case_decide; [lia|].
    rewrite lookup_app_r by (rewrite length_take, length_drop; lia).
    rewrite length_take, length_drop.
    replace (W `min` (length s - K))%nat with W by lia.
    case_decide.
    + rewrite lookup_take_lt by lia. rewrite lookup_drop. f_equal. lia.
    + rewrite lookup_take_ge by lia.
      apply lookup_ge_None_2. unfold Tensor_new.
      rewrite length_replicate, wrap64_small by lia. lia.
Qed.
End GetNextFill.

Lemma lookup_len_concat (d : list (list Z)) (n : nat) (s : list Z) :
  d !! n = Some s -> len s <= len (concat d).
Proof.
  revert n. induction d as [|x d IH]; intros n H; [discriminate|].
  simpl. rewrite len_app. destruct n as [|n]; simpl in H.
  - inversion H. subst. pose proof (len_nonneg (concat d)). lia.
  - specialize (IH n H). pose proof (len_nonneg x). lia.
Qed.

Lemma lookup_lt_len {A} (d : list A) (n : nat) (s : A) :
  d !! n = Some s -> Z.of_nat n < len d.
Proof. intros H. apply lookup_lt_Some in H. unfold len. lia. Qed.

Lemma GetNext_window_eq (l : CBOWLoader) (s : list Z) :
  window_fits (window_size_ l) -> corpus_fits (data_ l) -> at_window l s ->
  GetNext l = Ok (window_at (window_size_ l) s (currentWord_ l), advance l s).
Proof.
  intros [Hw0 Hw] Hfit (Hcs & Hs & Hcw & Hin).
  pose proof (lookup_len_concat _ _ _ Hs) as Hls.
  pose proof (lookup_lt_len _ _ _ Hs) as Hlt.
  pose proof (len_nonneg (data_ l)) as Hd0.
  pose proof (len_nonneg (concat (data_ l))) as Hc0.
  unfold corpus_fits in Hfit.
  set (W := Z.to_nat (window_size_ l)).
  set (K := Z.to_nat (currentWord_ l)).
  assert (HW : window_size_ l = Z.of_nat W) by (unfold W; lia).
  assert (HK : currentWord_ l = Z.of_nat K) by (unfold K; lia).
  assert (Hin' : (K + 2 * W < length s)%nat) by (unfold len in Hin; lia).
  assert (Hlen : len s < 2 ^ 64) by lia.
  destruct (lookup_lt_is_Some_2 s (K + W)%nat ltac:(lia)) as [c Hc].
  unfold GetNext.
  rewrite (index_lookup _ _ _ _ Hs eq_refl). cbn [mbind result_bind].
  rewrite (index_lookup s _ (K + W)%nat c Hc)
    by (rewrite wrap64_small by lia; lia).
  cbn [mbind result_bind].
  fold W. rewrite HW at 1.
  rewrite (GetNext_fill_window l s W K Hs HW HK Hin' Hlen).
  cbn [mbind result_bind].
  rewrite (at_lookup _ _ _ _ Hs eq_refl). cbn [mbind result_bind].
  rewrite (wrap64_small (currentWord_ l + 1)) by lia.
  rewrite (wrap64_small (2 * window_size_ l)) by lia.
  rewrite (wrap64_small (len s - 2 * window_size_ l)) by lia.
  rewrite (wrap64_small (currentSentence_ l + 1)) by lia.
  assert (Hwin : (fst (window_at (Z.of_nat W) s (Z.of_nat K)), c)
                 = window_at (window_size_ l) s (currentWord_ l)).
  { rewrite <- HW, <- HK. unfold window_at. cbn [fst]. f_equal.
    rewrite nth_lookup.
    replace (Z.to_nat (currentWord_ l + window_size_ l)) with (K + W)%nat
      by (unfold K, W; lia).
    rewrite Hc. reflexivity. }
  rewrite Hwin. unfold advance.
  destruct (currentWord_ l + 1 >=? len s - 2 * window_size_ l); reflexivity.
Qed.

(** ** Scanning the corpus with GetNext *)

Lemma IsDone_at_window (l : CBOWLoader) (s : list Z) :
  window_fits (window_size_ l) -> corpus_fits (data_ l) -> at_window l s ->
  IsDone l = Ok false.
Proof.
  intros [Hw0 Hw] Hfit (Hcs & Hs & Hcw & Hin).
  pose proof (lookup_len_concat _ _ _ Hs) as Hls.
  pose proof (lookup_lt_len _ _ _ Hs) as Hlt.
  pose proof (len_nonneg (concat (data_ l))) as Hc0.
  unfold corpus_fits in Hfit.
  unfold IsDone.
  destruct (Z.eqb_spec (len (data_ l)) 0); [lia|].
  destruct (Z.geb_spec (currentSentence_ l) (len (data_ l))); [lia|].
  destruct (currentSentence_ l >=? wrap64 (len (data_ l) - 1)); [|reflexivity].
  rewrite (at_lookup _ _ _ _ Hs eq_refl). cbn [mbind result_bind].
  rewrite (wrap64_small (2 * window_size_ l)) by lia.
  rewrite (wrap64_small (2 * window_size_ l + 1)) by lia.
  rewrite wrap64_small by lia.
  destruct (Z.gtb_spec (currentWord_ l) (len s - (2 * window_size_ l + 1)));
    [lia|reflexivity].
Qed.

Lemma IsDone_past_end (l : CBOWLoader) :
  len (data_ l) <= currentSentence_ l -> IsDone l = Ok true.
Proof.
  intros H. unfold IsDone.
  destruct (len (data_ l) =? 0); [reflexivity|].
  destruct (Z.geb_spec (currentSentence_ l) (len (data_ l))); [reflexivity|lia].
Qed.

Lemma GetNext_run_from (w : Z) (N : nat) :
  window_fits w ->
  forall (l : CBOWLoader) (pre : list (list Z)) (s : list Z)
         (post : list (list Z)),
    window_size_ l = w ->
    corpus_fits (data_ l) ->
    data_ l = pre ++ s :: post ->
    currentSentence_ l = len pre ->
    0 <= currentWord_ l ->
    currentWord_ l + 2 * w < len s ->
    sentences_long w post ->
    N = Z.to_nat (len s - 2 * w - currentWord_ l + total_windows w post) ->
    GetNext_run N l =
      Ok (sentence_windows w (len pre) s (currentWord_ l)
            ++ corpus_windows w (len pre + 1) post,
          set_cursor l (len (data_ l)) 0).
Proof.
  intros Hwf. pose proof Hwf as [Hw0 Hw].
  induction N as [|N IH]; intros l pre s post HW Hfit Hd Hcs Hcw Hin Hlong HN.
  { pose proof (total_windows_bounds w post Hw0). lia. }
  assert (Hs : data_ l !! Z.to_nat (currentSentence_ l) = Some s).
  { rewrite Hd, Hcs. unfold len. rewrite Nat2Z.id.
    rewrite lookup_app_r by lia. rewrite Nat.sub_diag. reflexivity. }
  assert (Hat : at_window l s).
  { split; [rewrite Hcs; apply len_nonneg|]. rewrite HW. auto. }
  cbn [GetNext_run].
  rewrite (IsDone_at_window l s) by (rewrite ?HW; assumption).
  cbn [mbind result_bind].
  rewrite (GetNext_window_eq l s) by (rewrite ?HW; assumption).
  cbn [mbind result_bind]. rewrite HW.
  unfold sentence_windows at 1.
  rewrite (seqZ_cons (currentWord_ l)) by lia. cbn [map app].
  rewrite Hcs.
  unfold advance. rewrite HW, Hcs.
  destruct (Z.geb_spec (currentWord_ l + 1) (len s - 2 * w)) as [Hlast|Hmore].
  - (* the last window of [s] *)
    replace (Z.pred (len s - 2 * w - currentWord_ l)) with 0 by lia.
    change (seqZ (Z.succ (currentWord_ l)) 0) with (@nil Z). cbn [map app].
    destruct post as [|s2 post].
    + cbn [total_windows] in HN. replace N with O by lia.
      cbn [GetNext_run mbind result_bind corpus_windows].
      do 3 f_equal. unfold set_cursor. cbn. f_equal.
      rewrite Hd, len_app, len_cons. change (len (@nil (list Z))) with 0. lia.
    + apply Forall_cons in Hlong as [Hs2 Hlong'].
      rewrite (IH (set_cursor l (len pre + 1) 0) (pre ++ [s]) s2 post).
      * cbn [mbind result_bind]. cbn [corpus_windows data_ set_cursor currentWord_].
        rewrite len_app, len_cons. change (len (@nil (list Z))) with 0.
        rewrite Z.add_0_r. reflexivity.
      * exact HW.
      * exact Hfit.
      * cbn. rewrite Hd, <- app_assoc. reflexivity.
      * cbn. rewrite len_app, len_cons. change (len (@nil (list Z))) with 0. lia.
      * cbn. lia.
      * cbn. lia.
      * exact Hlong'.
      * cbn [currentWord_ set_cursor]. cbn [total_windows] in HN |- *.
        unfold windows_in in HN.
        pose proof (total_windows_bounds w post Hw0). lia.
  - (* more windows in [s] *)
    rewrite (IH (set_cursor l (len pre) (currentWord_ l + 1)) pre s post).
    + cbn [mbind result_bind]. cbn [data_ set_cursor currentWord_].
      unfold sentence_windows.
      replace (Z.pred (len s - 2 * w - currentWord_ l))
        with (len s - 2 * w - (currentWord_ l + 1)) by lia.
      reflexivity.
    + exact HW.
    + exact Hfit.
    + exact Hd.
    + reflexivity.
    + cbn. lia.
    + cbn. lia.
    + exact Hlong.
    + cbn [currentWord_ set_cursor].
      pose proof (total_windows_bounds w post Hw0). lia.
Qed.

(** ** Ingestion keeps the cursor and only stores long sentences *)

Lemma span_fits w : window_fits w -> wrap64 (wrap64 (2 * w) + 1) = 2 * w + 1.
Proof.
  intros [H0 H]. rewrite (wrap64_small (2 * w)) by lia.
  apply wrap64_small. lia.
Qed.

Lemma index_token_length (strings : list string) (m : vocab_map) (acc : list Z) :
  length (snd (fold_left index_token strings (m, acc)))
  = (length acc + length strings)%nat.
Proof.
  revert m acc. induction strings as [|t ts IH]; intros m acc; simpl.
  - lia.
  - destruct (map_insert t (len m, 0) m) as [m1 v].
    rewrite IH, length_app. simpl. lia.
Qed.

Lemma StringsToIndexes_frame (strings : list string) (l : CBOWLoader) :
  let l' := snd (StringsToIndexes strings l) in
  currentSentence_ l' = currentSentence_ l /\
  currentWord_ l' = currentWord_ l /\
  window_size_ l' = window_size_ l /\
  data_ l' = data_ l.
Proof.
  unfold StringsToIndexes.
  destruct (len strings >=? _); [|simpl; auto].
  destruct (fold_left index_token strings (vocab_ l, [])) as [m idx].
  simpl. auto.
Qed.

Lemma StringsToIndexes_length (strings : list string) (l : CBOWLoader) :
  len (fst (StringsToIndexes strings l)) =
    if len strings >=? wrap64 (wrap64 (2 * window_size_ l) + 1)
    then len strings else 0.
Proof.
  unfold StringsToIndexes.
  destruct (len strings >=? _); [|reflexivity].
  pose proof (index_token_length strings (vocab_ l) []) as H.
  destruct (fold_left index_token strings (vocab_ l, [])) as [m idx].
  simpl in *. unfold len. lia.
Qed.

Lemma AddData_frame (s : string) (l : CBOWLoader) :
  let l' := snd (AddData s l) in
  currentSentence_ l' = currentSentence_ l /\
  currentWord_ l' = currentWord_ l /\
  window_size_ l' = window_size_ l.
Proof.
  unfold AddData.
  pose proof (StringsToIndexes_frame (PreprocessString s) l) as H.
  destruct (StringsToIndexes (PreprocessString s) l) as [idx l1].
  simpl in H. destruct H as (H1 & H2 & H3 & H4).
  destruct (len idx >=? _); simpl; auto.
Qed.

Lemma AddData_long (s : string) (l : CBOWLoader) :
  window_fits (window_size_ l) ->
  sentences_long (window_size_ l) (data_ l) ->
  sentences_long (window_size_ l) (data_ (snd (AddData s l))).
Proof.
  intros Hw Hlong. unfold AddData.
  pose proof (StringsToIndexes_frame (PreprocessString s) l) as H.
  destruct (StringsToIndexes (PreprocessString s) l) as [idx l1].
  simpl in H. destruct H as (H1 & H2 & H3 & H4).
  rewrite (span_fits _ Hw).
  destruct (Z.geb_spec (len idx) (2 * window_size_ l + 1)); simpl.
  - rewrite H4. apply Forall_app. split; [exact Hlong|].
    constructor; [lia|constructor].
  - rewrite H4. exact Hlong.
Qed.

Lemma ingest_frame (ss : list string) (l : CBOWLoader) :
  window_fits (window_size_ l) ->
  sentences_long (window_size_ l) (data_ l) ->
  let l' := ingest ss l in
  currentSentence_ l' = currentSentence_ l /\
  currentWord_ l' = currentWord_ l /\
  window_size_ l' = window_size_ l /\
  sentences_long (window_size_ l) (data_ l').
Proof.
  revert l. induction ss as [|s ss IH]; intros l Hw Hlong; simpl.
  - auto.
  - pose proof (AddData_frame s l) as (H1 & H2 & H3).
    pose proof (AddData_long s l Hw Hlong) as H4.
    destruct (IH (snd (AddData s l))) as (I1 & I2 & I3 & I4).
    { rewrite H3. exact Hw. }
    { rewrite H3. exact H4. }
    rewrite H3 in *.
    repeat split; first [congruence | exact I4].
Qed.

(** ** The positions of a scan are pairwise distinct *)

Lemma sentence_windows_positions w i s k :
  map fst (sentence_windows w i s k) = map (pair i) (seqZ k (len s - 2 * w - k)).
Proof. unfold sentence_windows. rewrite map_map. reflexivity. Qed.

Lemma corpus_windows_from w i d :
  Forall (fun p => i <= fst p) (map fst (corpus_windows w i d)).
Proof.
  revert i. induction d as [|s d IH]; intros i; simpl.
  - constructor.
  - rewrite map_app. apply Forall_app. split.
    + rewrite sentence_windows_positions. apply Forall_forall.
      intros p Hp. apply list_elem_of_fmap in Hp as (j & -> & _). simpl. lia.
    + eapply Forall_impl; [apply IH|]. simpl. intros p Hp. lia.
Qed.

Lemma corpus_windows_NoDup w i d :
  NoDup (map fst (corpus_windows w i d)).
Proof.
  revert i. induction d as [|s d IH]; intros i; simpl.
  - constructor.
  - rewrite map_app. apply NoDup_app. split; [|split].
    + rewrite sentence_windows_positions.
      apply NoDup_fmap_2_strong; [|apply NoDup_seqZ].
      intros a b _ _ H. inversion H. reflexivity.
    + intros p Hp Hq. rewrite sentence_windows_positions in Hp.
      apply list_elem_of_fmap in Hp as (j & -> & _).
      pose proof (corpus_windows_from w (i + 1) d) as Hfrom.
      rewrite Forall_forall in Hfrom. specialize (Hfrom _ Hq). simpl in Hfrom. lia.
    + apply IH.
Qed.

Lemma sentence_windows_length w i s :
  2 * w + 1 <= len s -> len (sentence_windows w i s 0) = len s - 2 * w.
Proof.
  intros H. unfold sentence_windows, len.
  rewrite length_map, length_seqZ. unfold len in H. lia.
Qed.

(** ** The ordered map *)

Lemma str_lt_trans a b c : str_lt a b -> str_lt b c -> str_lt a c.
Proof.
  unfold str_lt. intros H1 H2.
  apply String_as_OT.cmp_lt in H1. apply String_as_OT.cmp_lt in H2.
  apply String_as_OT.cmp_lt. eapply String_as_OT.lt_trans; eassumption.
Qed.

Lemma compare_Lt_eqb a b : String.compare a b = Lt -> String.eqb a b = false.
Proof.
  intros H. apply String.eqb_neq. intros ->.
  assert (E : String.compare b b = Eq) by (apply String_as_OT.cmp_eq; reflexivity).
  congruence.
Qed.

Lemma compare_Gt_eqb a b : String.compare a b = Gt -> String.eqb a b = false.
Proof.
  intros H. apply String.eqb_neq. intros ->.
  assert (E : String.compare b b = Eq) by (apply String_as_OT.cmp_eq; reflexivity).
  congruence.
Qed.

Lemma compare_Eq_eq a b : String.compare a b = Eq -> a = b.
Proof. apply String.compare_eq_iff. Qed.

Lemma compare_Gt_lt a b : String.compare a b = Gt -> str_lt b a.
Proof.
  intros H. unfold str_lt. rewrite String.compare_antisym, H. reflexivity.
Qed.

Lemma map_find_below (k : string) (m : vocab_map) :
  Forall (str_lt k) (keys m) -> map_find k m = None.
Proof.
  induction m as [|[k' v'] m IH]; intros H; simpl; [reflexivity|].
  apply Forall_cons in H as [H1 H2]. simpl in H1.
  rewrite (compare_Lt_eqb _ _ H1). apply IH, H2.
Qed.

Lemma map_find_In (k : string) (v : Z * Z) (m : vocab_map) :
  map_find k m = Some v -> (k, v) ∈ m.
Proof.
  induction m as [|[k' v'] m IH]; simpl; [discriminate|].
  destruct (String.eqb_spec k k') as [->|Hne]; intros H.
  - inversion H. subst. left.
  - right. apply IH, H.
Qed.

Lemma map_find_keys (k : string) (m : vocab_map) :
  map_find k m = None -> k ∉ keys m.
Proof.
  induction m as [|[k' v'] m IH]; simpl; intros H Hin.
  - inversion Hin.
  - destruct (String.eqb_spec k k') as [->|Hne]; [discriminate|].
    apply elem_of_cons in Hin as [?|Hin]; [congruence|]. exact (IH H Hin).
Qed.

(** What [insert] does to lookups; no ordering is needed for this part. *)
Lemma map_insert_find (k k' : string) (v : Z * Z) (m : vocab_map) :
  map_find k' (fst (map_insert k v m)) =
    if String.eqb k' k then Some (snd (map_insert k v m)) else map_find k' m.
Proof.
  induction m as [|[k1 v1] m IH]; simpl.
  - destruct (String.eqb k' k); reflexivity.
  - destruct (String.compare k k1) eqn:Hc.
    + apply compare_Eq_eq in Hc. subst k1. simpl.
      destruct (String.eqb k' k); reflexivity.
    + simpl. destruct (String.eqb k' k); reflexivity.
    + destruct (map_insert k v m) as [m2 e]. simpl in *.
      rewrite IH.
      destruct (String.eqb_spec k' k1) as [->|Hne]; [|reflexivity].
      rewrite String.eqb_sym, (compare_Gt_eqb _ _ Hc). reflexivity.
Qed.

Lemma sorted_map_cons_inv k v m :
  sorted_map ((k, v) :: m) -> sorted_map m /\ Forall (str_lt k) (keys m).
Proof. unfold sorted_map. simpl. intros H. apply StronglySorted_inv in H. exact H. Qed.

(** With the keys in order, [insert] keeps an element that is already
    there and adds one otherwise. *)
Lemma map_insert_sorted (k : string) (v : Z * Z) (m : vocab_map) :
  sorted_map m ->
  sorted_map (fst (map_insert k v m)) /\
  match map_find k m with
  | Some v' => map_insert k v m = (m, v')
  | None => snd (map_insert k v m) = v /\ fst (map_insert k v m) ≡ₚ (k, v) :: m
  end.
Proof.
  induction m as [|[k1 v1] m IH]; intros Hs; simpl.
  - split; [|auto]. unfold sorted_map. simpl. repeat constructor.
  - destruct (sorted_map_cons_inv _ _ _ Hs) as [Hs' Hall].
    destruct (String.compare k k1) eqn:Hc.
    + apply compare_Eq_eq in Hc. subst k1. rewrite String.eqb_refl.
      simpl. auto.
    + rewrite (compare_Lt_eqb _ _ Hc). simpl.
      assert (Hbelow : Forall (str_lt k) (keys m)).
      { eapply Forall_impl; [exact Hall|]. intros x Hx.
        eapply str_lt_trans; [exact Hc|exact Hx]. }
      rewrite (map_find_below k m Hbelow).
      split; [|auto].
      unfold sorted_map. simpl. constructor; [exact Hs|].
      constructor; [exact Hc|exact Hbelow].
    + rewrite (compare_Gt_eqb _ _ Hc).
      destruct (IH Hs') as [IH1 IH2].
      pose proof (map_insert_find k) as Hfind.
      destruct (map_insert k v m) as [m2 e]. simpl in *.
      split.
      * unfold sorted_map. simpl. constructor; [exact IH1|].
        destruct (map_find k m) as [v'|].
        -- inversion IH2. subst. exact Hall.
        -- destruct IH2 as [_ Hp].
           assert (Hk : keys m2 ≡ₚ k :: keys m).
           { unfold keys. rewrite Hp. reflexivity. }
           rewrite Hk. constructor; [apply compare_Gt_lt, Hc|exact Hall].
      * destruct (map_find k m) as [v'|].
        -- inversion IH2. subst. reflexivity.
        -- destruct IH2 as [-> Hp]. split; [reflexivity|].
           rewrite Hp. apply Permutation_swap.
Qed.

(** What [it->second.second++] does. *)
Lemma map_increment_keys (k : string) (m : vocab_map) :
  keys (map_increment k m) = keys m.
Proof.
  induction m as [|[k1 [i f]] m IH]; simpl; [reflexivity|].
  destruct (String.eqb k k1); simpl; [reflexivity|]. rewrite IH. reflexivity.
Qed.

Lemma map_increment_indices (k : string) (m : vocab_map) :
  indices (map_increment k m) = indices m.
Proof.
  induction m as [|[k1 [i f]] m IH]; simpl; [reflexivity|].
  destruct (String.eqb k k1); simpl; [reflexivity|]. rewrite IH. reflexivity.
Qed.

Lemma map_increment_length (k : string) (m : vocab_map) :
  len (map_increment k m) = len m.
Proof.
  unfold len. rewrite <- (length_map fst (map_increment k m)).
  fold (keys (map_increment k m)). rewrite map_increment_keys.
  unfold keys. rewrite length_map. reflexivity.
Qed.

Lemma map_increment_find (k k' : string) (m : vocab_map) :
  map_find k' (map_increment k m) =
    if String.eqb k' k
    then match map_find k m with
         | Some (i, f) => Some (i, wrap64 (f + 1))
         | None => None
         end
    else map_find k' m.
Proof.
  induction m as [|[k1 [i f]] m IH]; simpl.
  - destruct (String.eqb k' k); reflexivity.
  - destruct (String.eqb_spec k k1) as [->|Hne]; simpl.
    + destruct (String.eqb k' k1); reflexivity.
    + rewrite IH. destruct (String.eqb_spec k' k) as [->|Hne'].
      * destruct (String.eqb_spec k k1); [contradiction|reflexivity].
      * reflexivity.
Qed.

(** ** The token stream *)

Lemma before_app_in (word : string) (tk r : list string) :
  word ∈ tk -> before word (tk ++ r) = before word tk.
Proof.
  induction tk as [|t tk IH]; intros H; [inversion H|]. simpl.
  destruct (String.eqb_spec t word) as [->|Hne]; [reflexivity|].
  apply elem_of_cons in H as [?|H]; [congruence|].
  rewrite IH by exact H. reflexivity.
Qed.

Lemma before_app_notin (word : string) (tk r : list string) :
  word ∉ tk -> before word (tk ++ r) = tk ++ before word r.
Proof.
  induction tk as [|t tk IH]; intros H; [reflexivity|]. simpl.
  apply not_elem_of_cons in H as [Hne H].
  destruct (String.eqb_spec t word) as [->|_]; [contradiction|].
  rewrite IH by exact H. reflexivity.
Qed.

Lemma first_index_app_in (word : string) (tk r : list string) :
  word ∈ tk -> first_index (tk ++ r) word = first_index tk word.
Proof. intros H. unfold first_index. rewrite before_app_in by exact H. reflexivity. Qed.

Lemma first_index_new (word : string) (tk : list string) :
  word ∉ tk -> first_index (tk ++ [word]) word = len (remove_dups tk).
Proof.
  intros H. unfold first_index. rewrite before_app_notin by exact H.
  simpl. rewrite String.eqb_refl, app_nil_r. reflexivity.
Qed.

Lemma occurrences_snoc (tk : list string) (t word : string) :
  occurrences (tk ++ [t]) word =
    occurrences tk word + (if String.eqb word t then 1 else 0).
Proof.
  unfold occurrences. rewrite count_occ_app. simpl.
  destruct (String.string_dec t word) as [->|Hne].
  - rewrite String.eqb_refl. lia.
  - destruct (String.eqb_spec word t); [congruence|]. lia.
Qed.

Lemma occurrences_notin (tk : list string) (word : string) :
  word ∉ tk -> occurrences tk word = 0.
Proof.
  intros H. unfold occurrences.
  rewrite (proj1 (count_occ_not_In String.string_dec tk word)); [reflexivity|].
  intros Hin. apply H. apply list_elem_of_In. exact Hin.
Qed.

Lemma occurrences_le (tk : list string) (word : string) :
  0 <= occurrences tk word <= len tk.
Proof.
  unfold occurrences, len. induction tk as [|t tk IH]; simpl; [lia|].
  destruct (String.string_dec t word); lia.
Qed.

Lemma distinct_snoc_in (tk : list string) (t : string) :
  t ∈ tk -> len (remove_dups (tk ++ [t])) = len (remove_dups tk).
Proof.
  intros H. unfold len. f_equal. apply Permutation_length.
  apply NoDup_Permutation; [apply NoDup_remove_dups..|].
  intros x. rewrite !elem_of_remove_dups, elem_of_app, list_elem_of_singleton.
  split; [intros [?| ->]; assumption|auto].
Qed.

Lemma distinct_snoc_new (tk : list string) (t : string) :
  t ∉ tk -> len (remove_dups (tk ++ [t])) = len (remove_dups tk) + 1.
Proof.
  intros H. unfold len.
  assert (Hp : remove_dups (tk ++ [t]) ≡ₚ t :: remove_dups tk).
  { apply NoDup_Permutation.
    - apply NoDup_remove_dups.
    - constructor; [rewrite elem_of_remove_dups; exact H|apply NoDup_remove_dups].
    - intros x.
      rewrite elem_of_cons, !elem_of_remove_dups, elem_of_app, list_elem_of_singleton.
      tauto. }
  rewrite (Permutation_length Hp). simpl. lia.
Qed.

Lemma wrap64_succ x : wrap64 (wrap64 x + 1) = wrap64 (x + 1).
Proof. unfold wrap64. apply Zplus_mod_idemp_l. Qed.

(** ** One token through the vocabulary *)

Lemma index_token_step (m : vocab_map) (tk : list string) (acc : list Z)
      (t : string) :
  vocab_of m tk ->
  exists m',
    index_token (m, acc) t = (m', acc ++ [first_index (tk ++ [t]) t]) /\
    vocab_of m' (tk ++ [t]).
Proof.
  intros (Hsort & Hidx & Hlen & Hfind).
  unfold index_token.
  destruct (map_insert_sorted t (len m, 0) m Hsort) as [Hsort' Hins].
  pose proof (map_insert_find t) as Hfi.
  specialize (Hfi t (len m, 0) m) as Hft. rewrite String.eqb_refl in Hft.
  pose proof (fun k' => map_insert_find t k' (len m, 0) m) as Hfo.
  destruct (map_insert t (len m, 0) m) as [m1 value] eqn:Hm1.
  simpl in Hsort', Hft, Hfo.
  exists (map_increment t m1).
  rewrite (Hfind t) in Hins.
  destruct (decide (t ∈ tk)) as [Hin|Hnin].
  - (* a word seen before *)
    inversion Hins. subst m1 value. simpl.
    split; [rewrite first_index_app_in by exact Hin; reflexivity|].
    split; [unfold sorted_map; rewrite map_increment_keys; exact Hsort|].
    split; [rewrite map_increment_indices, map_increment_length; exact Hidx|].
    split; [rewrite map_increment_length, distinct_snoc_in by exact Hin; exact Hlen|].
    intros word. rewrite map_increment_find, (Hfind t), (Hfind word).
    destruct (decide (t ∈ tk)); [|contradiction].
    destruct (String.eqb_spec word t) as [->|Hne].
    + destruct (decide (t ∈ tk ++ [t])) as [_|Hn];
        [|exfalso; apply Hn, elem_of_app; auto].
      rewrite first_index_app_in by exact Hin.
      rewrite occurrences_snoc, String.eqb_refl, wrap64_succ. reflexivity.
    + destruct (decide (word ∈ tk)) as [Hw|Hw].
      * destruct (decide (word ∈ tk ++ [t])) as [_|Hn];
          [|exfalso; apply Hn, elem_of_app; auto].
        rewrite first_index_app_in by exact Hw.
        rewrite occurrences_snoc.
        destruct (String.eqb_spec word t); [contradiction|].
        rewrite Z.add_0_r. reflexivity.
      * destruct (decide (word ∈ tk ++ [t])) as [Hn|_]; [|reflexivity].
        apply elem_of_app in Hn as [?|Hn]; [contradiction|].
        apply list_elem_of_singleton in Hn. contradiction.
  - (* a new word *)
    destruct Hins as [Hv Hperm]. simpl in Hv, Hperm. subst value. simpl.
    assert (Hlen1 : len m1 = len m + 1).
    { unfold len. rewrite (Permutation_length Hperm). simpl. lia. }
    split; [rewrite first_index_new by exact Hnin; rewrite Hlen; reflexivity|].
    split; [unfold sorted_map; rewrite map_increment_keys; exact Hsort'|].
    split.
    { rewrite map_increment_indices, map_increment_length, Hlen1.
      unfold indices. rewrite Hperm. simpl. fold (indices m). rewrite Hidx.
      rewrite (seqZ_app 0 (len m) 1) by (pose proof (len_nonneg m); lia).
      simpl. rewrite Permutation_app_comm. reflexivity. }
    split; [rewrite map_increment_length, distinct_snoc_new by exact Hnin; lia|].
    intros word. rewrite map_increment_find, Hft.
    destruct (String.eqb_spec word t) as [->|Hne].
    + destruct (decide (t ∈ tk ++ [t])) as [_|Hn];
        [|exfalso; apply Hn, elem_of_app; right; left].
      rewrite first_index_new by exact Hnin.
      rewrite occurrences_snoc, String.eqb_refl, occurrences_notin by exact Hnin.
      rewrite Hlen. reflexivity.
    + rewrite Hfo. destruct (String.eqb_spec word t); [contradiction|].
      rewrite (Hfind word).
      destruct (decide (word ∈ tk)) as [Hw|Hw].
      * destruct (decide (word ∈ tk ++ [t])) as [_|Hn];
          [|exfalso; apply Hn, elem_of_app; auto].
        rewrite first_index_app_in by exact Hw.
        rewrite occurrences_snoc.
        destruct (String.eqb_spec word t); [contradiction|].
        rewrite Z.add_0_r. reflexivity.
      * destruct (decide (word ∈ tk ++ [t])) as [Hn|_]; [|reflexivity].
        apply elem_of_app in Hn as [?|Hn]; [contradiction|].
        apply list_elem_of_singleton in Hn. contradiction.
Qed.

(** ** The tokenizer *)

Ltac ascii_cases c :=
  destruct c as [[] [] [] [] [] [] [] []]; vm_compute; try reflexivity;
  try discriminate; auto.

Lemma isalpha_tolower (c : ascii) : isalpha c = true -> islower (tolower c) = true.
Proof. ascii_cases c. Qed.

Lemma islower_not_space (c : ascii) : islower c = true -> isspace c = false.
Proof. ascii_cases c. Qed.

Lemma islower_isalpha (c : ascii) : islower c = true -> isalpha c = true.
Proof. ascii_cases c. Qed.

Lemma islower_tolower (c : ascii) : islower c = true -> tolower c = c.
Proof. ascii_cases c. Qed.

Lemma append_nil_r (s : string) : (s ++ EmptyString)%string = s.
Proof. induction s as [|c s IH]; simpl; [reflexivity|]. rewrite IH. reflexivity. Qed.

Lemma append_assoc (a b c : string) :
  ((a ++ b) ++ c)%string = (a ++ (b ++ c))%string.
Proof. induction a as [|x a IH]; simpl; [reflexivity|]. rewrite IH. reflexivity. Qed.

Lemma all_lower_app (a b : string) :
  all_lower (a ++ b) = all_lower a && all_lower b.
Proof.
  induction a as [|x a IH]; simpl; [reflexivity|].
  rewrite IH, andb_assoc. reflexivity.
Qed.

Lemma normalise_clean (s : string) : clean (normalise s) = true.
Proof.
  induction s as [|c s IH]; simpl; [reflexivity|]. rewrite IH, andb_true_r.
  destruct (isalpha c) eqn:Ha.
  - rewrite (isalpha_tolower c Ha). apply orb_true_r.
  - reflexivity.
Qed.

Lemma normalise_id (s : string) : clean s = true -> normalise s = s.
Proof.
  induction s as [|c s IH]; simpl; [reflexivity|].
  intros H. apply andb_true_iff in H as [Hc Hs]. rewrite (IH Hs). f_equal.
  apply orb_true_iff in Hc as [Hc|Hc].
  - apply Ascii.eqb_eq in Hc. subst c. reflexivity.
  - rewrite (islower_isalpha c Hc). apply islower_tolower, Hc.
Qed.

Lemma extract_words_tokens (s cur : string) :
  all_lower cur = true -> clean s = true ->
  Forall is_token (extract_words cur s).
Proof.
  revert cur. induction s as [|c s IH]; intros cur Hcur Hs; simpl.
  - destruct cur; [constructor|].
    constructor; [|constructor]. split; [discriminate|exact Hcur].
  - simpl in Hs. apply andb_true_iff in Hs as [Hc Hs].
    destruct (isspace c) eqn:Hsp.
    + destruct cur.
      * apply IH; [reflexivity|exact Hs].
      * constructor; [split; [discriminate|exact Hcur]|].
        apply IH; [reflexivity|exact Hs].
    + apply IH; [|exact Hs].
      rewrite all_lower_app, Hcur. simpl. rewrite andb_true_r.
      apply orb_true_iff in Hc as [Hc|Hc]; [|exact Hc].
      apply Ascii.eqb_eq in Hc. subst c. discriminate.
Qed.

Lemma PreprocessString_tokens (s : string) : Forall is_token (PreprocessString s).
Proof.
  unfold PreprocessString. apply extract_words_tokens; [reflexivity|].
  apply normalise_clean.
Qed.

Lemma clean_app (a b : string) : clean (a ++ b) = clean a && clean b.
Proof.
  induction a as [|x a IH]; simpl; [reflexivity|].
  rewrite IH, andb_assoc. reflexivity.
Qed.

Lemma all_lower_clean (s : string) : all_lower s = true -> clean s = true.
Proof.
  induction s as [|c s IH]; simpl; [reflexivity|].
  intros H. apply andb_true_iff in H as [Hc Hs].
  rewrite Hc, (IH Hs), orb_true_r. reflexivity.
Qed.

Lemma joined_clean (ws : list string) :
  Forall is_token ws -> clean (joined ws) = true.
Proof.
  induction 1 as [|w ws [_ Hw] _ IH]; simpl; [reflexivity|].
  rewrite clean_app, (all_lower_clean w Hw). simpl. exact IH.
Qed.

Lemma extract_words_word (w cur rest : string) :
  all_lower w = true -> (cur ++ w)%string <> EmptyString ->
  extract_words cur (w ++ (" " ++ rest))
  = (cur ++ w)%string :: extract_words EmptyString rest.
Proof.
  revert cur. induction w as [|c w IH]; intros cur Hw Hne; simpl.
  - rewrite append_nil_r in *. destruct cur; [contradiction|reflexivity].
  - simpl in Hw. apply andb_true_iff in Hw as [Hc Hw].
    rewrite (islower_not_space c Hc).
    rewrite IH; [|exact Hw|].
    + rewrite append_assoc. reflexivity.
    + rewrite append_assoc. simpl. exact Hne.
Qed.

Lemma extract_words_joined (ws : list string) :
  Forall is_token ws -> extract_words EmptyString (joined ws) = ws.
Proof.
  induction 1 as [|w ws [Hne Hw] _ IH]; [reflexivity|].
  cbn [joined]. rewrite extract_words_word; [|exact Hw|exact Hne].
  simpl. rewrite IH. reflexivity.
Qed.

(** Tokens written out with spaces are read back unchanged. *)
Lemma PreprocessString_joined (ws : list string) :
  Forall is_token ws -> PreprocessString (joined ws) = ws.
Proof.
  intros H. unfold PreprocessString.
  rewrite normalise_id by (apply joined_clean, H).
  apply extract_words_joined, H.
Qed.

(** ** Ingestion, seen from the token stream *)

Lemma index_token_fold (ts : list string) (m : vocab_map) (tk : list string)
      (acc : list Z) :
  vocab_of m tk ->
  exists m',
    fold_left index_token ts (m, acc)
    = (m', acc ++ map (first_index (tk ++ ts)) ts) /\
    vocab_of m' (tk ++ ts).
Proof.
  revert m tk acc. induction ts as [|t ts IH]; intros m tk acc Hv.
  - exists m. simpl. rewrite !app_nil_r. auto.
  - destruct (index_token_step m tk acc t Hv) as (m1 & Hstep & Hv1).
    destruct (IH m1 (tk ++ [t]) (acc ++ [first_index (tk ++ [t]) t]) Hv1)
      as (m' & Hfold & Hv').
    exists m'. cbn [fold_left]. rewrite Hstep, Hfold.
    replace (tk ++ t :: ts) with ((tk ++ [t]) ++ ts)
      by (rewrite <- app_assoc; reflexivity).
    split; [|exact Hv'].
    rewrite <- app_assoc. cbn [map app].
    rewrite (first_index_app_in t (tk ++ [t]) ts)
      by (apply elem_of_app; right; left).
    reflexivity.
Qed.

Lemma vocab_of_empty : vocab_of [] [].
Proof.
  split; [constructor|]. split; [reflexivity|]. split; [reflexivity|].
  intros word. simpl. destruct (decide (word ∈ [])) as [H|_]; [inversion H|reflexivity].
Qed.

Lemma loader_of_new (w : Z) : loader_of w (CBOWLoader_new w) [] [].
Proof.
  split; [reflexivity|]. split; [apply vocab_of_empty|].
  split; [constructor|]. split; [constructor|reflexivity].
Qed.

Lemma encoding_stable (tk r : list string) (D : list (list string)) :
  Forall (fun ws => Forall (fun x => x ∈ tk) ws) D ->
  map (map (first_index (tk ++ r))) D = map (map (first_index tk)) D.
Proof.
  induction 1 as [|ws D Hws _ IH]; simpl; [reflexivity|].
  rewrite IH. f_equal.
  induction Hws as [|x ws Hx _ IHws]; simpl; [reflexivity|].
  rewrite IHws, first_index_app_in by exact Hx. reflexivity.
Qed.

Lemma accepted_geb (w : Z) (tokens : list string) :
  (len tokens >=? 2 * w + 1) = accepted w tokens.
Proof. unfold accepted. apply Z.geb_leb. Qed.

Lemma AddData_spec (w : Z) (s : string) (l : CBOWLoader)
      (tk : list string) (D : list (list string)) :
  window_fits w -> loader_of w l tk D ->
  let tokens := PreprocessString s in
  if accepted w tokens then
    exists m',
      AddData s l =
        (true, set_corpus l m'
                 (data_ l ++ [map (first_index (tk ++ tokens)) tokens])) /\
      loader_of w (snd (AddData s l)) (tk ++ tokens) (D ++ [tokens])
  else AddData s l = (false, l).
Proof.
  intros Hw (HW & Hv & Htk & HD & Hdata) tokens.
  unfold AddData, StringsToIndexes. fold tokens.
  rewrite HW, (span_fits w Hw), accepted_geb.
  destruct (accepted w tokens) eqn:Hacc.
  - destruct (index_token_fold tokens (vocab_ l) tk [] Hv) as (m' & Hfold & Hv').
    rewrite Hfold. simpl app.
    assert (Hlen : len (map (first_index (tk ++ tokens)) tokens) = len tokens).
    { unfold len. rewrite length_map. reflexivity. }
    rewrite Hlen, accepted_geb, Hacc.
    exists m'. split; [reflexivity|].
    simpl. split; [exact HW|]. split; [exact Hv'|].
    pose proof (PreprocessString_tokens s) as Htok. fold tokens in Htok.
    split; [apply Forall_app; auto|].
    split.
    + apply Forall_app. split.
      * eapply Forall_impl; [exact HD|]. intros ws [Ha Hin]. split; [exact Ha|].
        eapply Forall_impl; [exact Hin|]. intros x Hx. apply elem_of_app. auto.
      * constructor; [|constructor]. split; [exact Hacc|].
        apply Forall_forall. intros x Hx. apply elem_of_app. auto.
    + rewrite map_app. simpl. rewrite Hdata. f_equal.
      symmetry. apply encoding_stable.
      eapply Forall_impl; [exact HD|]. intros ws [_ Hin]. exact Hin.
  - change (len (@nil Z)) with 0.
    destruct Hw as [Hw0 Hw1].
    destruct (Z.geb_spec 0 (2 * w + 1)); [lia|reflexivity].
Qed.

Lemma stored_sentences_cons (w : Z) (s : string) (ss : list string) :
  stored_sentences w (s :: ss) =
    (if accepted w (PreprocessString s) then [PreprocessString s] else [])
      ++ stored_sentences w ss.
Proof.
  unfold stored_sentences. simpl.
  destruct (accepted w (PreprocessString s)); reflexivity.
Qed.

Lemma ingest_spec (w : Z) (ss : list string) (l : CBOWLoader)
      (tk : list string) (D : list (list string)) :
  window_fits w -> loader_of w l tk D ->
  loader_of w (ingest ss l) (tk ++ token_stream w ss) (D ++ stored_sentences w ss).
Proof.
  intros Hw. revert l tk D. induction ss as [|s ss IH]; intros l tk D Hl.
  - simpl. unfold token_stream, stored_sentences. simpl. rewrite !app_nil_r. exact Hl.
  - simpl. unfold token_stream. rewrite stored_sentences_cons.
    pose proof (AddData_spec w s l tk D Hw Hl) as Hadd. simpl in Hadd.
    destruct (accepted w (PreprocessString s)).
    + destruct Hadd as (m' & _ & Hl').
      specialize (IH _ _ _ Hl'). unfold token_stream in IH.
      simpl. rewrite <- !app_assoc in IH. simpl in IH. exact IH.
    + rewrite Hadd. simpl. apply IH. exact Hl.
Qed.

Lemma ingest_new (w : Z) (ss : list string) :
  window_fits w ->
  loader_of w (ingest ss (CBOWLoader_new w)) (token_stream w ss)
            (stored_sentences w ss).
Proof.
  intros Hw. apply (ingest_spec w ss _ [] [] Hw (loader_of_new w)).
Qed.

(** ** Reading the vocabulary by index *)

Lemma sorted_keys_NoDup (ks : list string) : StronglySorted str_lt ks -> NoDup ks.
Proof.
  induction 1 as [|k ks _ IH Hall]; constructor; [|exact IH].
  intros Hin. rewrite Forall_forall in Hall. specialize (Hall k Hin).
  unfold str_lt in Hall.
  assert (E : String.compare k k = Eq) by (apply String_as_OT.cmp_eq; reflexivity).
  congruence.
Qed.

Lemma vocab_of_NoDup_keys (m : vocab_map) (tk : list string) :
  vocab_of m tk -> NoDup (keys m).
Proof. intros (Hs & _). apply sorted_keys_NoDup, Hs. Qed.

Lemma vocab_of_NoDup_indices (m : vocab_map) (tk : list string) :
  vocab_of m tk -> NoDup (indices m).
Proof. intros (_ & Hp & _). rewrite Hp. apply NoDup_seqZ. Qed.

Lemma In_map_find (k : string) (v : Z * Z) (m : vocab_map) :
  NoDup (keys m) -> (k, v) ∈ m -> map_find k m = Some v.
Proof.
  induction m as [|[k1 v1] m IH]; intros Hnd Hin; [inversion Hin|].
  simpl in Hnd. apply NoDup_cons in Hnd as [Hk1 Hnd]. simpl.
  apply elem_of_cons in Hin as [Heq|Hin].
  - inversion Heq. subst. rewrite String.eqb_refl. reflexivity.
  - destruct (String.eqb_spec k k1) as [->|_]; [|apply IH; assumption].
    exfalso. apply Hk1. unfold keys.
    apply list_elem_of_fmap. exists (k1, v). split; [reflexivity|exact Hin].
Qed.

Lemma WordFromIndex_scan_In (k : string) (i f : Z) (m : vocab_map) :
  NoDup (indices m) -> (k, (i, f)) ∈ m -> WordFromIndex_scan i m = k.
Proof.
  induction m as [|[k1 [i1 f1]] m IH]; intros Hnd Hin; [inversion Hin|].
  simpl in Hnd. apply NoDup_cons in Hnd as [Hi1 Hnd]. simpl.
  apply elem_of_cons in Hin as [Heq|Hin].
  - inversion Heq. subst. rewrite Z.eqb_refl. reflexivity.
  - destruct (Z.eqb_spec i1 i) as [->|_]; [|apply IH; assumption].
    exfalso. apply Hi1. unfold indices.
    apply list_elem_of_fmap. exists (k, (i, f)). split; [reflexivity|exact Hin].
Qed.


Lemma WordFromIndex_scan_absent (i : Z) (m : vocab_map) :
  i ∉ indices m -> WordFromIndex_scan i m = EmptyString.
Proof.
  induction m as [|[k1 [i1 f1]] m IH]; intros H; [reflexivity|]. simpl in *.
  apply not_elem_of_cons in H as [Hne H].
  destruct (Z.eqb_spec i1 i); [congruence|]. apply IH, H.
Qed.

(** The reverse map built by [RemoveInfrequent] reads like the vocabulary
    when no two words share an index. *)
Lemma reverse_vocab_fold (m : vocab_map) (rv : reverse_map) :
  fold_left (fun rv kvp => reverse_assign (fst (snd kvp))
                             (fst kvp, snd (snd kvp)) rv) m rv
  = rev (map (fun kvp => (fst (snd kvp), (fst kvp, snd (snd kvp)))) m) ++ rv.
Proof.
  revert rv. induction m as [|kvp m IH]; intros rv; simpl; [reflexivity|].
  rewrite IH. unfold reverse_assign. rewrite <- app_assoc. reflexivity.
Qed.

Lemma reverse_read_In (i : Z) (v : string * Z) (rv : reverse_map) :
  NoDup (map fst rv) -> (i, v) ∈ rv -> reverse_read i rv = v.
Proof.
  induction rv as [|[i1 v1] rv IH]; intros Hnd Hin; [inversion Hin|].
  simpl in Hnd. apply NoDup_cons in Hnd as [Hi1 Hnd]. simpl.
  apply elem_of_cons in Hin as [Heq|Hin].
  - inversion Heq. subst. rewrite Z.eqb_refl. reflexivity.
  - destruct (Z.eqb_spec i1 i) as [->|_]; [|apply IH; assumption].
    exfalso. apply Hi1.
    apply list_elem_of_fmap. exists (i, v). split; [reflexivity|exact Hin].
Qed.

Lemma reverse_vocab_read (k : string) (i f : Z) (m : vocab_map) :
  NoDup (indices m) -> (k, (i, f)) ∈ m ->
  reverse_read i (reverse_vocab m) = (k, f).
Proof.
  intros Hnd Hin. unfold reverse_vocab. rewrite reverse_vocab_fold, app_nil_r.
  apply reverse_read_In.
  - rewrite map_rev, map_map. simpl. rewrite <- Permutation_rev. exact Hnd.
  - rewrite <- Permutation_rev. apply list_elem_of_fmap.
    exists (k, (i, f)). split; [reflexivity|exact Hin].
Qed.

(** What the vocabulary says about a word of the stream. *)
Lemma vocab_of_entry (m : vocab_map) (tk : list string) (word : string) :
  vocab_of m tk -> word ∈ tk ->
  (word, (first_index tk word, wrap64 (occurrences tk word))) ∈ m.
Proof.
  intros (_ & _ & _ & Hfind) Hin. apply map_find_In.
  rewrite Hfind. destruct (decide (word ∈ tk)); [reflexivity|contradiction].
Qed.

Lemma vocab_of_decode (m : vocab_map) (tk : list string) (ws : list string) :
  vocab_of m tk -> Forall (fun x => x ∈ tk) ws ->
  map (fun i => WordFromIndex_scan i m) (map (first_index tk) ws) = ws.
Proof.
  intros Hv. induction 1 as [|x ws Hx _ IH]; simpl; [reflexivity|].
  rewrite IH. f_equal.
  eapply WordFromIndex_scan_In;
    [eapply vocab_of_NoDup_indices, Hv|apply vocab_of_entry; eassumption].
Qed.

(** ** The operations that leave vocabulary and corpus alone *)

Lemma GetNext_frame (l l' : CBOWLoader) (p : list Z * Z) :
  GetNext l = Ok (p, l') ->
  window_size_ l' = window_size_ l /\ vocab_ l' = vocab_ l /\ data_ l' = data_ l.
Proof.
  unfold GetNext.
  destruct (index (data_ l) (currentSentence_ l)) as [s|]; [|discriminate].
  cbn [mbind result_bind].
  destruct (index s _) as [label|]; [|discriminate]. cbn [mbind result_bind].
  destruct (GetNext_fill l _ 0 _) as [t|]; [|discriminate]. cbn [mbind result_bind].
  destruct (at_ (data_ l) (currentSentence_ l)) as [s'|]; [|discriminate].
  cbn [mbind result_bind].
  destruct (_ >=? _); intros H; inversion H; subst; simpl; auto.
Qed.

Lemma SetOffset_frame (l l' : CBOWLoader) (offset : Z) :
  SetOffset offset l = Ok l' ->
  window_size_ l' = window_size_ l /\ vocab_ l' = vocab_ l /\ data_ l' = data_ l.
Proof.
  unfold SetOffset. destruct (Size l =? 0); [discriminate|].
  destruct (SetOffset_walk _ _ _ _) as [[o cs]|]; [|discriminate].
  cbn [mbind result_bind].
  destruct (index (data_ l) cs) as [s|]; [|discriminate]. cbn [mbind result_bind].
  destruct (_ <? _); intros H; inversion H; subst; simpl; auto.
Qed.

(** ** RemoveInfrequent as a fresh ingestion *)

Lemma rebuild_sentence_fold (m : vocab_map) (tk : list string) (min : Z)
      (ws : list string) (acc : string) :
  vocab_of m tk -> Forall (fun x => x ∈ tk) ws ->
  fold_left (fun s word =>
               if snd (reverse_read word (reverse_vocab m)) >=? min
               then (s ++ (fst (reverse_read word (reverse_vocab m)) ++ " "))%string
               else s) (map (first_index tk) ws) acc
  = (acc ++ joined (kept tk min ws))%string.
Proof.
  intros Hv Hws. revert acc.
  induction Hws as [|x ws Hx _ IH]; intros acc; simpl.
  - rewrite append_nil_r. reflexivity.
  - rewrite (reverse_vocab_read x _ (wrap64 (occurrences tk x)) m);
      [|eapply vocab_of_NoDup_indices, Hv|apply vocab_of_entry; assumption].
    simpl. rewrite Z.geb_leb.
    destruct (min <=? wrap64 (occurrences tk x)).
    + rewrite IH. cbn [joined]. rewrite !append_assoc. reflexivity.
    + apply IH.
Qed.

Lemma rebuild_sentence_joined (m : vocab_map) (tk : list string) (min : Z)
      (ws : list string) :
  vocab_of m tk -> Forall (fun x => x ∈ tk) ws ->
  rebuild_sentence (reverse_vocab m) min (map (first_index tk) ws)
  = joined (kept tk min ws).
Proof.
  intros Hv Hws. unfold rebuild_sentence.
  rewrite (rebuild_sentence_fold m tk min ws EmptyString Hv Hws). reflexivity.
Qed.

Lemma ingest_fold {A} (g : A -> string) (xs : list A) (l : CBOWLoader) :
  fold_left (fun nl x => snd (AddData (g x) nl)) xs l = ingest (map g xs) l.
Proof.
  revert l. induction xs as [|x xs IH]; intros l; simpl; [reflexivity|].
  apply IH.
Qed.

Lemma kept_tokens (tk : list string) (min : Z) (ws : list string) :
  Forall is_token tk -> Forall (fun x => x ∈ tk) ws ->
  Forall is_token (kept tk min ws).
Proof.
  intros Htk Hws. apply Forall_forall. intros x Hx.
  unfold kept in Hx. apply list_elem_of_In, filter_In in Hx as [Hx _].
  apply list_elem_of_In in Hx.
  rewrite Forall_forall in Htk, Hws. apply Htk, Hws, Hx.
Qed.

Lemma stored_sentences_joined (w : Z) (X : list (list string)) :
  Forall (Forall is_token) X ->
  stored_sentences w (map joined X) = List.filter (accepted w) X.
Proof.
  induction 1 as [|x X Hx _ IH]; [reflexivity|].
  simpl map. rewrite stored_sentences_cons, IH, (PreprocessString_joined x Hx).
  simpl. destruct (accepted w x); reflexivity.
Qed.

Lemma RemoveInfrequent_spec (w min : Z) (l : CBOWLoader) (tk : list string)
      (D : list (list string)) :
  window_fits w -> loader_of w l tk D ->
  let X := map (kept tk (wrap32 min)) D in
  let nl := ingest (map joined X) (CBOWLoader_new w) in
  RemoveInfrequent min l = set_corpus l (vocab_ nl) (data_ nl) /\
  loader_of w (RemoveInfrequent min l)
            (concat (List.filter (accepted w) X)) (List.filter (accepted w) X).
Proof.
  intros Hw Hl X nl. pose proof Hl as (HW & Hv & Htk & HD & Hdata).
  assert (Hstrings :
    map (rebuild_sentence (reverse_vocab (vocab_ l)) (wrap32 min)) (data_ l)
    = map joined X).
  { rewrite Hdata. unfold X. rewrite !map_map.
    apply map_ext_Forall. eapply Forall_impl; [exact HD|].
    intros ws [_ Hws]. simpl. apply rebuild_sentence_joined; assumption. }
  assert (Heq : RemoveInfrequent min l = set_corpus l (vocab_ nl) (data_ nl)).
  { unfold RemoveInfrequent. rewrite ingest_fold, Hstrings, HW. reflexivity. }
  split; [exact Heq|].
  assert (HX : Forall (Forall is_token) X).
  { unfold X. apply Forall_forall. intros x Hx.
    apply list_elem_of_fmap in Hx as (ws & -> & Hws).
    rewrite Forall_forall in HD. destruct (HD ws Hws) as [_ Hin].
    apply kept_tokens; assumption. }
  pose proof (ingest_new w (map joined X) Hw) as Hnl. fold nl in Hnl.
  unfold token_stream in Hnl. rewrite (stored_sentences_joined w X HX) in Hnl.
  rewrite Heq. destruct Hnl as (N1 & N2 & N3 & N4 & N5).
  split; [exact HW|]. split; [exact N2|]. split; [exact N3|].
  split; [exact N4|exact N5].
Qed.

(** ** Every reachable loader holds the vocabulary of some token stream *)

Lemma reachable_loader_of (w : Z) (l : CBOWLoader) :
  window_fits w -> reachable w l -> exists tk D, loader_of w l tk D.
Proof.
  intros Hw. induction 1 as [|s l _ IH|l p l' _ IH Hget|l o l' _ IH Hset
                             |l l' _ IH Hreset|min l _ IH].
  - exists [], []. apply loader_of_new.
  - destruct IH as (tk & D & Hl).
    pose proof (AddData_spec w s l tk D Hw Hl) as Hadd. simpl in Hadd.
    destruct (accepted w (PreprocessString s)).
    + destruct Hadd as (m' & _ & Hl'). eauto.
    + rewrite Hadd. simpl. eauto.
  - destruct IH as (tk & D & (H1 & H2 & H3 & H4 & H5)).
    destruct (GetNext_frame _ _ _ Hget) as (F1 & F2 & F3).
    exists tk, D. unfold loader_of. rewrite F1, F2, F3. auto.
  - destruct IH as (tk & D & (H1 & H2 & H3 & H4 & H5)).
    destruct (SetOffset_frame _ _ _ Hset) as (F1 & F2 & F3).
    exists tk, D. unfold loader_of. rewrite F1, F2, F3. auto.
  - destruct IH as (tk & D & (H1 & H2 & H3 & H4 & H5)).
    destruct Hreset as [Hperm Heq].
    rewrite H5 in Hperm. symmetry in Hperm.
    apply Permutation_map_inv in Hperm as (D' & HD' & HpD).
    exists tk, D'. rewrite Heq. unfold loader_of. simpl.
    split; [exact H1|]. split; [exact H2|]. split; [exact H3|].
    split; [|exact HD']. rewrite <- HpD. exact H4.
  - destruct IH as (tk & D & Hl).
    destruct (RemoveInfrequent_spec w min l tk D Hw Hl) as [_ Hl']. eauto.
Qed.

(** ** First occurrences *)

Lemma before_split (word : string) (tk : list string) :
  word ∈ tk ->
  exists post, tk = before word tk ++ word :: post /\ word ∉ before word tk.
Proof.
  induction tk as [|t tk IH]; intros H; [inversion H|]. simpl.
  destruct (String.eqb_spec t word) as [->|Hne].
  - exists tk. split; [reflexivity|]. intros Hin. inversion Hin.
  - apply elem_of_cons in H as [?|H]; [congruence|].
    destruct (IH H) as (post & Heq & Hnin).
    exists post. split; [simpl; rewrite <- Heq; reflexivity|].
    intros Hin. apply elem_of_cons in Hin as [?|Hin]; [congruence|].
    exact (Hnin Hin).
Qed.

Lemma vocab_of_find_inv (m : vocab_map) (tk : list string) (word : string)
      (i f : Z) :
  vocab_of m tk -> map_find word m = Some (i, f) ->
  word ∈ tk /\ i = first_index tk word /\ f = wrap64 (occurrences tk word).
Proof.
  intros (_ & _ & _ & Hfind) H. rewrite Hfind in H.
  destruct (decide (word ∈ tk)) as [Hin|_]; [|discriminate].
  inversion H. auto.
Qed.

(** ** Pruning, read back as words *)


Lemma loader_of_decode (w : Z) (l : CBOWLoader) (tk : list string)
      (D : list (list string)) :
  loader_of w l tk D -> map (sentence_words l) (data_ l) = D.
Proof.
  intros (_ & Hv & _ & HD & Hdata). rewrite Hdata, map_map.
  rewrite <- (map_id D) at 2. apply map_ext_Forall.
  eapply Forall_impl; [exact HD|]. intros ws [_ Hws]. simpl.
  unfold sentence_words, WordFromIndex. apply vocab_of_decode; assumption.
Qed.

(** ** What one round of [StringsToIndexes] does to a word *)

(** A word not seen before gets the current size of the vocabulary as its
    index, with frequency 1. *)
Lemma index_token_new_word (m : vocab_map) (tk : list string) (acc : list Z)
      (t : string) :
  vocab_of m tk -> t ∉ tk ->
  exists m',
    index_token (m, acc) t = (m', acc ++ [len m]) /\
    map_find t m' = Some (len m, 1) /\
    len m' = len m + 1.
Proof.
  intros Hv Hnin. pose proof Hv as (_ & _ & Hsize & _).
  destruct (index_token_step m tk acc t Hv) as (m' & Hstep & Hv').
  exists m'. rewrite Hstep, (first_index_new t tk Hnin), Hsize.
  split; [reflexivity|].
  pose proof Hv' as (_ & _ & Hsize' & Hfind'). specialize (Hfind' t).
  destruct (decide (t ∈ tk ++ [t])) as [_|Hn];
    [|exfalso; apply Hn, elem_of_app; right; left].
  rewrite Hfind', (first_index_new t tk Hnin), occurrences_snoc.
  rewrite (occurrences_notin tk t Hnin), String.eqb_refl.
  split; [reflexivity|].
  rewrite Hsize', (distinct_snoc_new tk t Hnin). reflexivity.
Qed.

(** A word seen before keeps its index and its frequency goes up by one. *)
Lemma index_token_seen_word (m : vocab_map) (tk : list string) (acc : list Z)
      (t : string) (i f : Z) :
  vocab_of m tk -> map_find t m = Some (i, f) ->
  exists m',
    index_token (m, acc) t = (m', acc ++ [i]) /\
    map_find t m' = Some (i, wrap64 (f + 1)) /\
    len m' = len m.
Proof.
  intros Hv Hfind.
  destruct (vocab_of_find_inv _ _ _ _ _ Hv Hfind) as (Hin & -> & ->).
  pose proof Hv as (_ & _ & Hsize & _).
  destruct (index_token_step m tk acc t Hv) as (m' & Hstep & Hv').
  exists m'. rewrite Hstep, (first_index_app_in t tk [t] Hin).
  split; [reflexivity|].
  pose proof Hv' as (_ & _ & Hsize' & Hfind'). specialize (Hfind' t).
  destruct (decide (t ∈ tk ++ [t])) as [_|Hn];
    [|exfalso; apply Hn, elem_of_app; right; left].
  rewrite Hfind', (first_index_app_in t tk [t] Hin), occurrences_snoc.
  rewrite String.eqb_refl, wrap64_succ.
  split; [reflexivity|].
  rewrite Hsize', (distinct_snoc_in tk t Hin). symmetry. exact Hsize.
Qed.

(** ** SetOffset from the first sentence *)

Lemma SetOffset_walk_in_bounds (post pre d : list (list Z)) (offset : Z)
      (fuel : nat) :
  d = pre ++ post ->
  0 <= offset < 2 ^ 32 ->
  offset < len (concat post) ->
  len d < 2 ^ 64 ->
  (length post < fuel)%nat ->
  exists o' cs' s,
    SetOffset_walk fuel d offset (len pre) = Ok (o', cs') /\
    d !! Z.to_nat cs' = Some s.
Proof.
  revert pre offset fuel.
  induction post as [|s post IH]; intros pre offset fuel Hd Ho Hlt Hfit Hfuel.
  - unfold len in Hlt. simpl in Hlt. lia.
  - destruct fuel as [|fuel]; [simpl in Hfuel; lia|].
    assert (Hs : d !! Z.to_nat (len pre) = Some s).
    { rewrite Hd. unfold len. rewrite Nat2Z.id.
      rewrite lookup_app_r by lia. rewrite Nat.sub_diag. reflexivity. }
    cbn [SetOffset_walk].
    rewrite (index_lookup _ _ _ _ Hs eq_refl). cbn [mbind result_bind].
    pose proof (len_nonneg s) as Hs0. pose proof (len_nonneg pre) as Hp0.
    simpl in Hlt. rewrite len_app in Hlt.
    destruct (Z.gtb_spec offset (len s)) as [Hgt|Hle].
    + rewrite (wrap32_small (offset - len s)) by lia.
      assert (Hpre : wrap64 (len pre + 1) = len (pre ++ [s])).
      { rewrite len_app, len_cons. change (len (@nil (list Z))) with 0.
        apply wrap64_small. rewrite Hd, len_app, len_cons in Hfit.
        pose proof (len_nonneg post). lia. }
      rewrite Hpre.
      apply (IH (pre ++ [s])).
      * rewrite Hd, <- app_assoc. reflexivity.
      * lia.
      * lia.
      * exact Hfit.
      * simpl in Hfuel. lia.
    + exists offset, (len pre), s. auto.
Qed.

(** With the cursor in the first sentence, [SetOffset] returns: every
    access it makes is inside the corpus. *)
Lemma SetOffset_from_start (offset : Z) (l : CBOWLoader) :
  window_fits (window_size_ l) ->
  corpus_fits (data_ l) ->
  currentSentence_ l = 0 ->
  Size l <> 0 ->
  exists l', SetOffset offset l = Ok l'.
Proof.
  intros Hw Hfit Hcs Hsize.
  assert (HS : Size l = total_windows (window_size_ l) (data_ l)).
  { unfold Size. rewrite Size_fold; [lia|exact Hw|lia|].
    unfold corpus_fits in Hfit. pose proof (len_nonneg (data_ l)). lia. }
  pose proof (total_windows_bounds (window_size_ l) (data_ l) (proj1 Hw)) as Hb.
  unfold SetOffset.
  destruct (Z.eqb_spec (Size l) 0); [contradiction|].
  assert (Hrange : 0 <= wrap32 offset < 2 ^ 32)
    by (unfold wrap32; apply Z.mod_pos_bound; lia).
  assert (Hmod : 0 <= wrap32 offset mod Size l < Size l)
    by (apply Z.mod_pos_bound; lia).
  assert (Hle : wrap32 offset mod Size l <= wrap32 offset)
    by (apply Z.mod_le; lia).
  rewrite (wrap32_small (wrap32 offset mod Size l)) by lia.
  unfold corpus_fits in Hfit.
  pose proof (len_nonneg (data_ l)) as Hd0.
  pose proof (len_nonneg (concat (data_ l))) as Hc0.
  destruct (SetOffset_walk_in_bounds (data_ l) [] (data_ l)
              (wrap32 offset mod Size l) (S (length (data_ l))))
    as (o' & cs' & s & Hwalk & Hs); [reflexivity|lia|lia|lia|lia|].
  rewrite Hcs. change (len (@nil (list Z))) with 0 in Hwalk.
  rewrite Hwalk. cbn [mbind result_bind].
  unfold index. rewrite Hs. cbn [mbind result_bind].
  match goal with |- context [if ?c then _ else _] => destruct c end; eauto.
Qed.

(** The bound on the walk is never the reason [SetOffset] stops: the walk
    leaves the loop or runs past the last sentence first. *)
Lemma SetOffset_walk_fuel (d : list (list Z)) (fuel : nat) (offset cs : Z) :
  0 <= cs <= len d ->
  len d < 2 ^ 64 ->
  len d < Z.of_nat fuel + cs ->
  SetOffset_walk fuel d offset cs <> Fault OutOfFuel.
Proof.
  revert offset cs. induction fuel as [|fuel IH]; intros offset cs Hcs Hfit Hfuel.
  - lia.
  - cbn [SetOffset_walk]. unfold index.
    destruct (d !! Z.to_nat cs) as [s|] eqn:Hs; cbn [mbind result_bind];
      [|discriminate].
    apply lookup_lt_len in Hs.
    destruct (offset >? len s); [|discriminate].
    rewrite (wrap64_small (cs + 1)) by lia.
    apply IH; lia.
Qed.

Lemma SetOffset_never_out_of_fuel (offset : Z) (l : CBOWLoader) :
  0 <= currentSentence_ l ->
  len (data_ l) < 2 ^ 64 ->
  SetOffset offset l <> Fault OutOfFuel.
Proof.
  intros Hcs Hfit. unfold SetOffset.
  destruct (Size l =? 0); [discriminate|].
  destruct (SetOffset_walk _ _ _ _) as [[o cs]|f] eqn:Hwalk;
    cbn [mbind result_bind].
  - destruct (index (data_ l) cs) as [s|f] eqn:Hs; cbn [mbind result_bind].
    + destruct (o <? _); discriminate.
    + unfold index in Hs. destruct (data_ l !! Z.to_nat cs); [discriminate|].
      inversion Hs. discriminate.
  - intros Hf. inversion Hf. subst f. revert Hwalk.
    destruct (Z.le_gt_cases (currentSentence_ l) (len (data_ l))) as [Hle|Hgt].
    + apply SetOffset_walk_fuel; [lia|exact Hfit|unfold len; lia].
    + cbn [SetOffset_walk]. rewrite index_past_end by lia. discriminate.
Qed.

(** * Further facts *)

(** ** The tokenizer, continued *)

Lemma isalpha_tolower_same (c : ascii) : isalpha (tolower c) = isalpha c.
Proof. ascii_cases c. Qed.

Lemma tolower_idem (c : ascii) : tolower (tolower c) = tolower c.
Proof. ascii_cases c. Qed.

Lemma normalise_app (a b : string) :
  normalise (a ++ b) = (normalise a ++ normalise b)%string.
Proof. induction a as [|c a IH]; simpl; [reflexivity|]. rewrite IH. reflexivity. Qed.

Lemma normalise_lowercase (s : string) : normalise (lowercase s) = normalise s.
Proof.
  induction s as [|c s IH]; simpl; [reflexivity|].
  rewrite IH, isalpha_tolower_same, tolower_idem. reflexivity.
Qed.

Lemma extract_words_separator (s1 cur s2 : string) :
  extract_words cur (s1 ++ String " " s2)
  = extract_words cur s1 ++ extract_words EmptyString s2.
Proof.
  revert cur. induction s1 as [|c s1 IH]; intros cur; simpl.
  - destruct cur; reflexivity.
  - destruct (isspace c).
    + destruct cur; simpl; rewrite IH; reflexivity.
    + apply IH.
Qed.

Lemma extract_words_no_letters (s : string) :
  no_letters s = true -> extract_words EmptyString (normalise s) = [].
Proof.
  induction s as [|c s IH]; simpl; [reflexivity|].
  intros H. apply andb_true_iff in H as [Hc Hs].
  apply negb_true_iff in Hc. rewrite Hc. simpl. apply IH, Hs.
Qed.

(** ** GetNext on a cursor that points at no window *)

Lemma index_fault {A} (v : list A) (i : Z) (f : fault) :
  index v i = Fault f -> f = OutOfBounds.
Proof.
  unfold index. destruct (v !! Z.to_nat i); intros H; inversion H. reflexivity.
Qed.

Lemma GetNext_fill_S (l : CBOWLoader) (n : nat) (i : Z) (t : list Z) :
  GetNext_fill l (S n) i t =
    (s ← index (data_ l) (currentSentence_ l);
     a ← index s (wrap64 (currentWord_ l + i));
     t1 ← Tensor_set t i a;
     s2 ← index (data_ l) (currentSentence_ l);
     b ← index s2 (wrap64 (wrap64 (wrap64 (currentWord_ l + window_size_ l) + i) + 1));
     t2 ← Tensor_set t1 (wrap64 (i + window_size_ l)) b;
     GetNext_fill l n (wrap64 (i + 1)) t2).
Proof. reflexivity. Qed.

Lemma GetNext_fill_fault (l : CBOWLoader) (s : list Z) (W K : nat) :
  data_ l !! Z.to_nat (currentSentence_ l) = Some s ->
  window_size_ l = Z.of_nat W ->
  currentWord_ l = Z.of_nat K ->
  Z.of_nat K + 2 * Z.of_nat W + 1 < 2 ^ 64 ->
  (length s <= K + 2 * W)%nat ->
  forall (n ii : nat) (t : list Z),
    (ii + S n = W)%nat -> length t = (2 * W)%nat ->
    GetNext_fill l (S n) (Z.of_nat ii) t = Fault OutOfBounds.
Proof.
  intros Hs HW HK Hfit Hroom.
  induction n as [|n IH]; intros ii t Hn Ht;
    rewrite GetNext_fill_S;
    rewrite (index_lookup _ _ _ _ Hs eq_refl); cbn [mbind result_bind];
    rewrite HK, HW;
    rewrite (wrap64_small (Z.of_nat K + Z.of_nat ii)) by lia;
    rewrite (wrap64_small (Z.of_nat K + Z.of_nat W)) by lia;
    rewrite (wrap64_small (Z.of_nat K + Z.of_nat W + Z.of_nat ii)) by lia;
    rewrite (wrap64_small (Z.of_nat K + Z.of_nat W + Z.of_nat ii + 1)) by lia;
    (destruct (index s (Z.of_nat K + Z.of_nat ii)) as [a|f] eqn:Ea;
       cbn [mbind result_bind];
       [|apply index_fault in Ea; subst f; reflexivity]);
    rewrite (Tensor_set_ok t _ ii a) by lia; cbn [mbind result_bind].
  - rewrite (index_past_end s) by (unfold len; lia). reflexivity.
  - destruct (index s (Z.of_nat K + Z.of_nat W + Z.of_nat ii + 1)) as [b|f] eqn:Eb;
      cbn [mbind result_bind];
      [|apply index_fault in Eb; subst f; reflexivity].
    rewrite (Tensor_set_ok _ _ (ii + W)%nat b);
      [| rewrite wrap64_small by lia; lia | unfold wrap64; apply Z.mod_pos_bound; lia
       | rewrite length_insert; lia ].
    cbn [mbind result_bind].
    rewrite (wrap64_small (Z.of_nat ii + 1)) by lia.
    replace (Z.of_nat ii + 1) with (Z.of_nat (S ii)) by lia.
    apply IH; [lia|rewrite !length_insert; exact Ht].
Qed.

Lemma GetNext_no_room (l : CBOWLoader) (s : list Z) :
  window_fits (window_size_ l) ->
  0 <= currentSentence_ l ->
  data_ l !! Z.to_nat (currentSentence_ l) = Some s ->
  0 <= currentWord_ l ->
  currentWord_ l + 2 * window_size_ l + 1 < 2 ^ 64 ->
  len s <= currentWord_ l + 2 * window_size_ l ->
  GetNext l = Fault OutOfBounds.
Proof.
  intros [Hw0 Hw] Hcs Hs Hcw Hfit Hroom.
  remember (Z.to_nat (window_size_ l)) as W eqn:EW.
  remember (Z.to_nat (currentWord_ l)) as K eqn:EK.
  assert (HW : window_size_ l = Z.of_nat W) by lia.
  assert (HK : currentWord_ l = Z.of_nat K) by lia.
  unfold GetNext. rewrite <- EW.
  rewrite (index_lookup _ _ _ _ Hs eq_refl). cbn [mbind result_bind].
  destruct (index s (wrap64 (currentWord_ l + window_size_ l))) as [c|f] eqn:Ec;
    cbn [mbind result_bind];
    [|apply index_fault in Ec; subst f; reflexivity].
  destruct W as [|n].
  - exfalso. rewrite wrap64_small in Ec by lia.
    rewrite index_past_end in Ec by lia. discriminate.
  - pose proof (GetNext_fill_fault l s (S n) K Hs HW HK) as Hfill.
    specialize (Hfill ltac:(lia) ltac:(unfold len in Hroom; lia) n 0%nat
                      (Tensor_new (wrap64 (window_size_ l * 2)))).
    change (Z.of_nat 0) with 0 in Hfill.
    rewrite Hfill; [reflexivity|lia|].
    unfold Tensor_new. rewrite length_replicate, wrap64_small by lia. lia.
Qed.

(** ** The stream of a reachable loader is the words of its corpus *)

Lemma Permutation_concat {A} (X Y : list (list A)) :
  X ≡ₚ Y -> concat X ≡ₚ concat Y.
Proof.
  induction 1 as [|x X Y _ IH|x y X|X Y Z _ IH1 _ IH2]; simpl.
  - reflexivity.
  - rewrite IH. reflexivity.
  - rewrite !app_assoc. apply Permutation_app_tail, Permutation_app_comm.
  - rewrite IH1. exact IH2.
Qed.

Lemma reachable_loader_exact (w : Z) (l : CBOWLoader) :
  window_fits w -> reachable w l -> exists tk D, loader_exact w l tk D.
Proof.
  intros Hw. induction 1 as [|s l _ IH|l p l' _ IH Hget|l o l' _ IH Hset
                             |l l' _ IH Hreset|min l _ IH].
  - exists [], []. split; [apply loader_of_new|reflexivity].
  - destruct IH as (tk & D & Hl & Hp).
    pose proof (AddData_spec w s l tk D Hw Hl) as Hadd. simpl in Hadd.
    destruct (accepted w (PreprocessString s)).
    + destruct Hadd as (m' & _ & Hl').
      exists (tk ++ PreprocessString s), (D ++ [PreprocessString s]).
      split; [exact Hl'|].
      rewrite concat_app. simpl. rewrite app_nil_r, Hp. reflexivity.
    + rewrite Hadd. simpl. exists tk, D. split; assumption.
  - destruct IH as (tk & D & (H1 & H2 & H3 & H4 & H5) & Hp).
    destruct (GetNext_frame _ _ _ Hget) as (F1 & F2 & F3).
    exists tk, D. unfold loader_exact, loader_of. rewrite F1, F2, F3. auto 10.
  - destruct IH as (tk & D & (H1 & H2 & H3 & H4 & H5) & Hp).
    destruct (SetOffset_frame _ _ _ Hset) as (F1 & F2 & F3).
    exists tk, D. unfold loader_exact, loader_of. rewrite F1, F2, F3. auto 10.
  - destruct IH as (tk & D & (H1 & H2 & H3 & H4 & H5) & Hp).
    destruct Hreset as [Hperm Heq].
    rewrite H5 in Hperm. symmetry in Hperm.
    apply Permutation_map_inv in Hperm as (D' & HD' & HpD).
    exists tk, D'. rewrite Heq. unfold loader_exact, loader_of. simpl.
    split; [|rewrite <- (Permutation_concat _ _ HpD); exact Hp].
    split; [exact H1|]. split; [exact H2|]. split; [exact H3|].
    split; [|exact HD']. rewrite <- HpD. exact H4.
  - destruct IH as (tk & D & Hl & _).
    destruct (RemoveInfrequent_spec w min l tk D Hw Hl) as [_ Hl'].
    eexists _, _. split; [exact Hl'|reflexivity].
Qed.

Lemma loader_of_long (w : Z) (l : CBOWLoader) (tk : list string)
      (D : list (list string)) :
  loader_of w l tk D -> sentences_long w (data_ l).
Proof.
  intros (_ & _ & _ & HD & Hdata). rewrite Hdata. unfold sentences_long.
  apply Forall_fmap. eapply Forall_impl; [exact HD|].
  intros ws [Hacc _]. simpl. unfold accepted in Hacc. apply Z.leb_le in Hacc.
  unfold len in *. rewrite length_map. exact Hacc.
Qed.

Lemma reachable_long (w : Z) (l : CBOWLoader) :
  window_fits w -> reachable w l ->
  window_size_ l = w /\ sentences_long w (data_ l).
Proof.
  intros Hw Hr. destruct (reachable_loader_of w l Hw Hr) as (tk & D & Hl).
  split; [exact (proj1 Hl)|exact (loader_of_long _ _ _ _ Hl)].
Qed.

Lemma total_windows_long (w : Z) (d : list (list Z)) :
  sentences_long w d -> len d <= total_windows w d.
Proof.
  induction 1 as [|s d Hs _ IH]; simpl.
  - unfold len. simpl. lia.
  - rewrite len_cons. unfold windows_in. lia.
Qed.

Lemma Size_total (l : CBOWLoader) :
  window_fits (window_size_ l) -> corpus_fits (data_ l) ->
  Size l = total_windows (window_size_ l) (data_ l).
Proof.
  intros Hw Hfit. unfold Size.
  rewrite Size_fold; [lia|exact Hw|lia|].
  unfold corpus_fits in Hfit. pose proof (len_nonneg (data_ l)). lia.
Qed.

(** ** Indices and words correspond one to one *)

Lemma first_index_inj (m : vocab_map) (tk : list string) (x y : string) :
  vocab_of m tk -> x ∈ tk -> y ∈ tk ->
  first_index tk x = first_index tk y -> x = y.
Proof.
  intros Hv Hx Hy E.
  pose proof (vocab_of_NoDup_indices _ _ Hv) as Hnd.
  pose proof (vocab_of_entry _ _ _ Hv Hx) as Ex.
  pose proof (vocab_of_entry _ _ _ Hv Hy) as Ey.
  rewrite <- (WordFromIndex_scan_In _ _ _ _ Hnd Ex).
  rewrite <- (WordFromIndex_scan_In _ _ _ _ Hnd Ey).
  rewrite E. reflexivity.
Qed.

Lemma count_occ_encoded (m : vocab_map) (tk L : list string) (x : string) :
  vocab_of m tk -> x ∈ tk -> Forall (fun y => y ∈ tk) L ->
  count_occ Z.eq_dec (map (first_index tk) L) (first_index tk x)
  = count_occ String.string_dec L x.
Proof.
  intros Hv Hx. induction 1 as [|y L Hy _ IH]; simpl; [reflexivity|].
  destruct (Z.eq_dec (first_index tk y) (first_index tk x)) as [E|E];
    destruct (String.string_dec y x) as [E'|E'].
  - rewrite IH. reflexivity.
  - exfalso. apply E'. eapply first_index_inj; eassumption.
  - subst y. contradiction.
  - exact IH.
Qed.

Lemma occurrences_perm (a b : list string) (x : string) :
  a ≡ₚ b -> occurrences a x = occurrences b x.
Proof.
  intros H. unfold occurrences. f_equal.
  apply (proj1 (Permutation_count_occ String.string_dec a b) H).
Qed.

Lemma occurrences_app (a b : list string) (x : string) :
  occurrences (a ++ b) x = occurrences a x + occurrences b x.
Proof. unfold occurrences. rewrite count_occ_app. lia. Qed.

Lemma occurrences_pos (tk : list string) (x : string) :
  x ∈ tk -> 1 <= occurrences tk x.
Proof.
  intros H. unfold occurrences. apply list_elem_of_In in H.
  apply (count_occ_In String.string_dec) in H. lia.
Qed.

Lemma concat_encoded (f : string -> Z) (D : list (list string)) :
  concat (map (map f) D) = map f (concat D).
Proof.
  induction D as [|ws D IH]; simpl; [reflexivity|].
  rewrite IH, map_app. reflexivity.
Qed.

Lemma Forall_concat_in (tk : list string) (D : list (list string)) :
  Forall (fun ws => Forall (fun x => x ∈ tk) ws) D ->
  Forall (fun x => x ∈ tk) (concat D).
Proof.
  induction 1 as [|ws D Hws _ IH]; simpl; [constructor|].
  apply Forall_app. split; assumption.
Qed.

Lemma loader_of_words_in (w : Z) (l : CBOWLoader) (tk : list string)
      (D : list (list string)) :
  loader_of w l tk D -> Forall (fun ws => Forall (fun x => x ∈ tk) ws) D.
Proof.
  intros (_ & _ & _ & HD & _). eapply Forall_impl; [exact HD|].
  intros ws [_ H]. exact H.
Qed.

(** ** SetOffset: faults of the walk, and offsets inside the first sentence *)

Lemma SetOffset_walk_faults (fuel : nat) (d : list (list Z)) (o cs : Z) (f : fault) :
  SetOffset_walk fuel d o cs = Fault f -> f = OutOfBounds \/ f = OutOfFuel.
Proof.
  revert o cs. induction fuel as [|fuel IH]; intros o cs; simpl.
  - intros H. inversion H. auto.
  - destruct (index d cs) as [s|f'] eqn:E; cbn [mbind result_bind].
    + destruct (o >? len s); [apply IH|discriminate].
    + intros H. inversion H. subst f'. left. eapply index_fault, E.
Qed.

Lemma SetOffset_first_sentence (offset : Z) (l : CBOWLoader) (s0 : list Z)
      (rest : list (list Z)) :
  window_fits (window_size_ l) ->
  corpus_fits (data_ l) ->
  currentSentence_ l = 0 ->
  data_ l = s0 :: rest ->
  wrap32 offset mod Size l < len s0 - 2 * window_size_ l ->
  SetOffset offset l = Ok (set_cursor l 0 (wrap32 offset mod Size l)).
Proof.
  intros Hw Hfit Hcs Hd Hr. pose proof Hw as [Hw0 Hw1].
  pose proof (Size_total l Hw Hfit) as HS.
  pose proof (total_windows_bounds (window_size_ l) (data_ l) Hw0) as Hb.
  assert (Hpos : 0 < Size l).
  { rewrite HS, Hd. cbn [total_windows].
    pose proof (total_windows_bounds (window_size_ l) rest Hw0).
    assert (0 <= wrap32 offset mod Size l); [|unfold windows_in; lia].
    destruct (Z.eq_dec (Size l) 0) as [E|E].
    - rewrite E, Z.mod_0_r. unfold wrap32. apply Z.mod_pos_bound. lia.
    - apply Z.mod_pos_bound. rewrite HS in *. lia. }
  assert (Hrange : 0 <= wrap32 offset < 2 ^ 32)
    by (unfold wrap32; apply Z.mod_pos_bound; lia).
  assert (Hmod : 0 <= wrap32 offset mod Size l < Size l)
    by (apply Z.mod_pos_bound; lia).
  assert (Hle : wrap32 offset mod Size l <= wrap32 offset)
    by (apply Z.mod_le; lia).
  unfold SetOffset.
  destruct (Z.eqb_spec (Size l) 0); [lia|].
  rewrite (wrap32_small (wrap32 offset mod Size l)) by lia.
  assert (Hs0 : data_ l !! Z.to_nat 0 = Some s0) by (rewrite Hd; reflexivity).
  pose proof (lookup_len_concat _ _ _ Hs0) as Hls.
  unfold corpus_fits in Hfit. pose proof (len_nonneg (data_ l)) as Hd0.
  cbn [SetOffset_walk]. rewrite Hcs.
  rewrite (index_lookup _ _ _ _ Hs0 eq_refl). cbn [mbind result_bind].
  destruct (Z.gtb_spec (wrap32 offset mod Size l) (len s0)); [lia|].
  cbn [mbind result_bind].
  rewrite (index_lookup _ _ _ _ Hs0 eq_refl). cbn [mbind result_bind].
  rewrite (wrap64_small (len s0 - window_size_ l)) by lia.
  destruct (Z.ltb_spec (wrap32 offset mod Size l) (len s0 - window_size_ l));
    [reflexivity|lia].
Qed.

(** ** Size does not depend on the order of the sentences *)

Lemma Size_step_comm (w a : Z) (x y : list Z) :
  Size_step w (Size_step w a x) y = Size_step w (Size_step w a y) x.
Proof.
  unfold Size_step.
  destruct (len x >? wrap64 (2 * w)); destruct (len y >? wrap64 (2 * w));
    try reflexivity.
  unfold wrap64. rewrite !Zplus_mod_idemp_l. f_equal. lia.
Qed.

Lemma Size_fold_perm (w : Z) (d d' : list (list Z)) :
  d ≡ₚ d' ->
  forall acc, fold_left (Size_step w) d acc = fold_left (Size_step w) d' acc.
Proof.
  induction 1 as [|x d d' _ IH|x y d|d d' d'' _ IH1 _ IH2]; intros acc; simpl.
  - reflexivity.
  - apply IH.
  - rewrite Size_step_comm. reflexivity.
  - rewrite IH1. apply IH2.
Qed.

(** ** A scan from the start of a corpus of long sentences *)

Lemma scan_from_start (w : Z) (l : CBOWLoader) :
  window_fits w ->
  window_size_ l = w ->
  sentences_long w (data_ l) ->
  corpus_fits (data_ l) ->
  currentSentence_ l = 0 ->
  currentWord_ l = 0 ->
  GetNext_run (Z.to_nat (Size l)) l
  = Ok (corpus_windows w 0 (data_ l), set_cursor l (len (data_ l)) 0).
Proof.
  intros Hw HW Hlong Hfit Hcs Hcw. pose proof Hw as [Hw0 Hw1].
  assert (HS : Size l = total_windows w (data_ l)).
  { rewrite <- HW in Hw |- *. apply Size_total; assumption. }
  rewrite HS.
  assert (Hcase : data_ l = [] \/ exists s post, data_ l = s :: post)
    by (destruct (data_ l); eauto).
  destruct Hcase as [Hd|(s & post & Hd)].
  - rewrite Hd. simpl. do 2 f_equal.
    destruct l. simpl in *. subst. reflexivity.
  - rewrite Hd in Hlong. apply Forall_cons in Hlong as [Hs Hpost].
    rewrite (GetNext_run_from w _ Hw l [] s post HW);
      [ | exact Hfit | exact Hd | exact Hcs | lia | lia | exact Hpost | ].
    + rewrite Hcw, Hd. reflexivity.
    + rewrite Hcw, Hd. cbn [total_windows]. unfold windows_in. f_equal. lia.
Qed.

(** ** Entries of the vocabulary of a stream *)

Lemma vocab_of_key_in (m : vocab_map) (tk : list string) (k : string) :
  vocab_of m tk -> k ∈ keys m -> k ∈ tk.
Proof.
  intros (_ & _ & _ & Hfind) Hk. specialize (Hfind k).
  destruct (decide (k ∈ tk)) as [Hin|_]; [exact Hin|].
  exfalso. exact (map_find_keys k m Hfind Hk).
Qed.

Lemma vocab_of_entry_inv (m : vocab_map) (tk : list string) (k : string)
      (i f : Z) :
  vocab_of m tk -> (k, (i, f)) ∈ m ->
  k ∈ tk /\ i = first_index tk k /\ f = wrap64 (occurrences tk k).
Proof.
  intros Hv Hentry.
  apply (In_map_find _ _ _ (vocab_of_NoDup_keys _ _ Hv)) in Hentry.
  exact (vocab_of_find_inv _ _ _ _ _ Hv Hentry).
Qed.

Lemma vocab_of_index_range (m : vocab_map) (tk : list string) (x : string) :
  vocab_of m tk -> x ∈ tk -> 0 <= first_index tk x < len m.
Proof.
  intros Hv Hx. pose proof (vocab_of_entry _ _ _ Hv Hx) as Hentry.
  destruct Hv as (_ & Hperm & _).
  assert (Hi : first_index tk x ∈ indices m).
  { unfold indices. apply list_elem_of_fmap. eexists. split; [|exact Hentry].
    reflexivity. }
  rewrite Hperm in Hi. apply elem_of_seqZ in Hi. lia.
Qed.

Lemma indices_entry (m : vocab_map) (i : Z) :
  i ∈ indices m -> exists k f, (k, (i, f)) ∈ m.
Proof.
  unfold indices. intros H. apply list_elem_of_fmap in H as ([k [i' f]] & -> & Hin).
  simpl. eauto.
Qed.

(** ** What pruning keeps *)

Lemma kept_zero (tk : list string) (ws : list string) : kept tk 0 ws = ws.
Proof.
  unfold kept. induction ws as [|x ws IH]; simpl; [reflexivity|].
  assert (H : 0 <= wrap64 (occurrences tk x))
    by (unfold wrap64; apply Z.mod_pos_bound; lia).
  apply Z.leb_le in H. rewrite H, IH. reflexivity.
Qed.

Lemma filter_all {A} (P : A -> bool) (xs : list A) :
  Forall (fun x => P x = true) xs -> List.filter P xs = xs.
Proof.
  induction 1 as [|x xs Hx _ IH]; simpl; [reflexivity|].
  rewrite Hx, IH. reflexivity.
Qed.

Lemma distinct_perm (a b : list string) :
  a ≡ₚ b -> len (remove_dups a) = len (remove_dups b).
Proof.
  intros H. unfold len. f_equal. apply Permutation_length.
  apply NoDup_Permutation; [apply NoDup_remove_dups..|].
  intros x. rewrite !elem_of_remove_dups, H. reflexivity.
Qed.

Lemma distinct_subset (a b : list string) :
  (forall x, x ∈ a -> x ∈ b) -> len (remove_dups a) <= len (remove_dups b).
Proof.
  intros H. unfold len. apply inj_le. apply submseteq_length.
  apply NoDup_submseteq; [apply NoDup_remove_dups|].
  intros x. rewrite !elem_of_remove_dups. apply H.
Qed.

Lemma kept_in (tk : list string) (min : Z) (ws : list string) (x : string) :
  x ∈ kept tk min ws -> x ∈ ws /\ min <= wrap64 (occurrences tk x).
Proof.
  unfold kept. intros H. apply list_elem_of_In, filter_In in H as [H1 H2].
  split; [apply list_elem_of_In, H1|apply Z.leb_le, H2].
Qed.

Lemma pruned_word_in (w min : Z) (tk : list string) (D : list (list string))
      (x : string) :
  x ∈ concat (List.filter (accepted w) (map (kept tk min) D)) ->
  x ∈ concat D /\ min <= wrap64 (occurrences tk x).
Proof.
  intros H. apply list_elem_of_In, in_concat in H as (ws' & Hws' & Hx).
  apply filter_In in Hws' as [Hws' _].
  apply in_map_iff in Hws' as (ws & <- & Hws).
  apply list_elem_of_In, kept_in in Hx as [Hx Hmin].
  split; [|exact Hmin].
  apply list_elem_of_In, in_concat. exists ws. split; [exact Hws|].
  apply list_elem_of_In, Hx.
Qed.

Lemma occurrences_kept_le (tk : list string) (min : Z) (ws : list string)
      (x : string) :
  occurrences (kept tk min ws) x <= occurrences ws x.
Proof.
  unfold occurrences, kept. induction ws as [|y ws IH]; simpl; [lia|].
  destruct (min <=? wrap64 (occurrences tk y)); simpl;
    destruct (String.string_dec y x); lia.
Qed.

Lemma occurrences_nonneg (tk : list string) (x : string) : 0 <= occurrences tk x.
Proof. unfold occurrences. lia. Qed.

Lemma occurrences_pruned_le (w min : Z) (tk : list string)
      (D : list (list string)) (x : string) :
  occurrences (concat (List.filter (accepted w) (map (kept tk min) D))) x
  <= occurrences (concat D) x.
Proof.
  induction D as [|ws D IH]; simpl; [lia|].
  rewrite occurrences_app.
  pose proof (occurrences_kept_le tk min ws x) as Hk.
  pose proof (occurrences_nonneg ws x).
  destruct (accepted w (kept tk min ws)); simpl.
  - rewrite occurrences_app. lia.
  - lia.
Qed.

Lemma len_kept_le (tk : list string) (min : Z) (ws : list string) :
  len (kept tk min ws) <= len ws.
Proof.
  unfold len, kept. apply inj_le. induction ws as [|y ws IH]; simpl; [lia|].
  destruct (min <=? wrap64 (occurrences tk y)); simpl; lia.
Qed.

Lemma len_concat_pruned_le (w min : Z) (tk : list string)
      (D : list (list string)) :
  len (concat (List.filter (accepted w) (map (kept tk min) D)))
  <= len (concat D).
Proof.
  induction D as [|ws D IH]; simpl; [lia|].
  rewrite len_app. pose proof (len_kept_le tk min ws). pose proof (len_nonneg ws).
  destruct (accepted w (kept tk min ws)); simpl; [rewrite len_app|]; lia.
Qed.

Lemma len_pruned_le (w min : Z) (tk : list string) (D : list (list string)) :
  len (List.filter (accepted w) (map (kept tk min) D)) <= len D.
Proof.
  induction D as [|ws D IH]; simpl; [lia|].
  rewrite len_cons.
  destruct (accepted w (kept tk min ws)); simpl; [rewrite len_cons|]; lia.
Qed.

Lemma len_map {A B} (f : A -> B) (xs : list A) : len (map f xs) = len xs.
Proof. unfold len. rewrite length_map. reflexivity. Qed.

Lemma total_windows_pruned_le (w min : Z) (tk : list string)
      (D : list (list string)) (f g : string -> Z) :
  0 <= w ->
  total_windows w (map (map f)
                     (List.filter (accepted w) (map (kept tk min) D)))
  <= total_windows w (map (map g) D).
Proof.
  intros Hw. induction D as [|ws D IH]; simpl; [lia|].
  pose proof (len_kept_le tk min ws) as Hk.
  pose proof (windows_in_le w (map g ws) Hw) as Hg.
  destruct (accepted w (kept tk min ws)); simpl.
  - unfold windows_in in *. rewrite !len_map in *. lia.
  - lia.
Qed.

(** ** A stream has one vocabulary *)

Lemma sorted_find_unique (m1 m2 : vocab_map) :
  sorted_map m1 -> sorted_map m2 ->
  (forall k, map_find k m1 = map_find k m2) -> m1 = m2.
Proof.
  revert m2. induction m1 as [|[k1 v1] m1 IH]; intros m2 Hs1 Hs2 Hfind.
  - destruct m2 as [|[k2 v2] m2]; [reflexivity|].
    specialize (Hfind k2). simpl in Hfind. rewrite String.eqb_refl in Hfind.
    discriminate.
  - destruct m2 as [|[k2 v2] m2].
    + specialize (Hfind k1). simpl in Hfind. rewrite String.eqb_refl in Hfind.
      discriminate.
    + destruct (sorted_map_cons_inv _ _ _ Hs1) as [Hs1' Hall1].
      destruct (sorted_map_cons_inv _ _ _ Hs2) as [Hs2' Hall2].
      assert (Hk : k1 = k2).
      { destruct (String.compare k1 k2) eqn:Hc.
        - apply compare_Eq_eq, Hc.
        - exfalso. pose proof (Hfind k1) as H. simpl in H.
          rewrite String.eqb_refl, (compare_Lt_eqb _ _ Hc) in H.
          rewrite map_find_below in H; [discriminate|].
          eapply Forall_impl; [exact Hall2|]. intros x Hx.
          eapply str_lt_trans; [exact Hc|exact Hx].
        - exfalso. apply compare_Gt_lt in Hc.
          pose proof (Hfind k2) as H. simpl in H.
          rewrite String.eqb_refl, (compare_Lt_eqb _ _ Hc) in H.
          rewrite map_find_below in H; [discriminate|].
          eapply Forall_impl; [exact Hall1|]. intros x Hx.
          eapply str_lt_trans; [exact Hc|exact Hx]. }
      subst k2.
      assert (Hv : v1 = v2).
      { specialize (Hfind k1). simpl in Hfind.
        rewrite String.eqb_refl in Hfind. congruence. }
      subst v2. f_equal. apply IH; [exact Hs1'|exact Hs2'|].
      intros k. pose proof (Hfind k) as Hk. simpl in Hk.
      destruct (String.eqb_spec k k1) as [E|_]; [|exact Hk].
      rewrite E.
      rewrite (map_find_below k1 m1 Hall1), (map_find_below k1 m2 Hall2).
      reflexivity.
Qed.

Lemma vocab_of_unique (m1 m2 : vocab_map) (tk : list string) :
  vocab_of m1 tk -> vocab_of m2 tk -> m1 = m2.
Proof.
  intros (Hs1 & _ & _ & Hf1) (Hs2 & _ & _ & Hf2).
  apply sorted_find_unique; [exact Hs1|exact Hs2|].
  intros k. rewrite Hf1, Hf2. reflexivity.
Qed.

Lemma map_kept_zero (tk : list string) (D : list (list string)) :
  map (kept tk 0) D = D.
Proof.
  induction D as [|ws D IH]; simpl; [reflexivity|].
  rewrite kept_zero, IH. reflexivity.
Qed.

Lemma rebuild_of_built (w : Z) (l : CBOWLoader) (D : list (list string)) :
  window_fits w -> loader_of w l (concat D) D -> RemoveInfrequent 0 l = l.
Proof.
  intros Hw Hl.
  destruct (RemoveInfrequent_spec w 0 l (concat D) D Hw Hl) as [Heq Hl'].
  change (wrap32 0) with 0 in Hl'.
  rewrite map_kept_zero in Hl'.
  pose proof Hl as (_ & Hv & _ & HD & Hdata).
  assert (HF : List.filter (accepted w) D = D).
  { apply filter_all. eapply Forall_impl; [exact HD|]. intros ws [H _]. exact H. }
  rewrite HF in Hl'.
  destruct Hl' as (_ & Hv' & _ & _ & Hdata').
  pose proof (vocab_of_unique _ _ _ Hv' Hv) as Hvocab.
  rewrite Heq in Hvocab, Hdata' |- *. simpl in Hvocab, Hdata'.
  rewrite Hvocab, Hdata', <- Hdata.
  destruct l. reflexivity.
Qed.

(** ** How much the vocabulary grows *)

Lemma distinct_app (tk ts : list string) :
  len (remove_dups (tk ++ ts))
  = len (remove_dups tk) + len (remove_dups (filter (fun t => t ∉ tk) ts)).
Proof.
  rewrite <- len_app. unfold len. f_equal. apply Permutation_length.
  apply NoDup_Permutation.
  - apply NoDup_remove_dups.
  - apply NoDup_app. split; [apply NoDup_remove_dups|].
    split; [|apply NoDup_remove_dups].
    intros x Hx Hy. rewrite elem_of_remove_dups in Hx, Hy.
    apply list_elem_of_filter in Hy as [Hy _]. contradiction.
  - intros x.
    rewrite elem_of_app, !elem_of_remove_dups, elem_of_app, list_elem_of_filter.
    destruct (decide (x ∈ tk)); tauto.
Qed.

(** * The claims *)

(** C5, as amended.  When [2*window_size + 1] fits in 64 bits, [Size()]
    is the sum, over the stored sentences, of
    [max(0, len(sentence) - 2*window_size)]; it is a function of the
    current corpus only. *)
Theorem Size_is_sum_of_windows (l : CBOWLoader) :
  window_fits (window_size_ l) ->
  corpus_fits (data_ l) ->
  Size l = total_windows (window_size_ l) (data_ l).
Proof.
  intros Hw Hfit. unfold Size.
  rewrite Size_fold; [lia|exact Hw|lia|].
  unfold corpus_fits in Hfit. pose proof (len_nonneg (data_ l)). lia.
Qed.

Lemma Size_is_sum_of_windows_witness :
  window_fits (window_size_ fox_loader) /\ corpus_fits (data_ fox_loader) /\
  Size fox_loader = total_windows (window_size_ fox_loader) (data_ fox_loader).
Proof.
  assert (Hw : window_fits (window_size_ fox_loader))
    by (split; vm_compute; congruence).
  assert (Hfit : corpus_fits (data_ fox_loader)) by (vm_compute; reflexivity).
  split; [exact Hw|]. split; [exact Hfit|].
  exact (Size_is_sum_of_windows fox_loader Hw Hfit).
Defined.

(** C5 as stated fails for a window size of [2^63]: [2 * window_size_]
    wraps to 0, so [Size()] counts the three words of the stored sentence
    while [max(0, 3 - 2*window_size)] is 0. *)
Lemma Size_wraps_counterexample :
  window_size_ wide_loader = 2 ^ 63 /\
  data_ wide_loader = [[0; 1; 2]] /\
  Size wide_loader = 3 /\
  total_windows (window_size_ wide_loader) (data_ wide_loader) = 0.
Proof. repeat split; vm_compute; reflexivity. Qed.

(** C3, as amended.  When the cursor points at a window of the current
    sentence ([sentence_index] is a stored sentence [s] and
    [word_index + 2*window_size < len s]), the state is Active and
    [GetNext] returns the [window_size] indices before position
    [word_index + window_size] followed by the [window_size] indices after
    it, with the index at that position as label, and moves the cursor to
    the next window. *)
Theorem GetNext_at_window (l : CBOWLoader) (s : list Z) :
  window_fits (window_size_ l) ->
  corpus_fits (data_ l) ->
  at_window l s ->
  IsDone l = Ok false /\
  GetNext l =
    Ok ((take (Z.to_nat (window_size_ l)) (drop (Z.to_nat (currentWord_ l)) s)
           ++ take (Z.to_nat (window_size_ l))
                (drop (Z.to_nat (currentWord_ l + window_size_ l + 1)) s),
         nth (Z.to_nat (currentWord_ l + window_size_ l)) s 0),
        advance l s).
Proof.
  intros Hw Hfit Hat. split.
  - apply (IsDone_at_window l s Hw Hfit Hat).
  - rewrite (GetNext_window_eq l s Hw Hfit Hat). reflexivity.
Qed.

Lemma GetNext_at_window_witness :
  window_fits (window_size_ fox_loader) /\ corpus_fits (data_ fox_loader) /\
  at_window fox_loader [0; 1; 2; 3; 4; 5; 0; 6; 7] /\
  GetNext fox_loader = Ok (([0; 1; 3; 4], 2), set_cursor fox_loader 0 1).
Proof.
  assert (Hw : window_fits (window_size_ fox_loader))
    by (split; vm_compute; congruence).
  assert (Hfit : corpus_fits (data_ fox_loader)) by (vm_compute; reflexivity).
  assert (Hat : at_window fox_loader [0; 1; 2; 3; 4; 5; 0; 6; 7])
    by (repeat split; vm_compute; congruence).
  split; [exact Hw|]. split; [exact Hfit|]. split; [exact Hat|].
  exact (proj2 (GetNext_at_window fox_loader _ Hw Hfit Hat)).
Defined.

(** C3 as stated fails: a cursor can be Active ([IsDone] answers false)
    without pointing at a window.  After pruning has shortened the
    sentence under the cursor to three words, the cursor still stands at
    word 2 of it; the sentence is not the last one, so [IsDone] answers
    false, and [GetNext] reads past the end of the sentence. *)
Lemma GetNext_active_counterexample :
  (l ← pruned_mid_scan; IsDone l) = Ok false /\
  (l ← pruned_mid_scan; GetNext l) = Fault OutOfBounds.
Proof. split; vm_compute; reflexivity. Qed.

(** C4, as amended.  When [2*window_size + 1] fits in 64 bits, [AddData]
    returns false exactly when the string has fewer than
    [2*window_size + 1] tokens, and then the loader is unchanged: nothing
    is added to the corpus and the vocabulary is not touched. *)
Theorem AddData_rejects_short (s : string) (l : CBOWLoader) :
  window_fits (window_size_ l) ->
  (fst (AddData s l) = false <->
   len (PreprocessString s) < 2 * window_size_ l + 1) /\
  (fst (AddData s l) = false -> snd (AddData s l) = l).
Proof.
  intros Hw. pose proof Hw as [Hw0 Hw1].
  unfold AddData, StringsToIndexes. rewrite (span_fits _ Hw).
  destruct (Z.geb_spec (len (PreprocessString s)) (2 * window_size_ l + 1))
    as [Hge|Hlt].
  - pose proof (index_token_length (PreprocessString s) (vocab_ l) []) as Hlen.
    destruct (fold_left index_token (PreprocessString s) (vocab_ l, []))
      as [m idx].
    simpl in Hlen.
    destruct (Z.geb_spec (len idx) (2 * window_size_ l + 1)) as [_|Hc].
    + simpl. split; [split; [discriminate|lia]|discriminate].
    + unfold len in *. lia.
  - change (len (@nil Z)) with 0.
    destruct (Z.geb_spec 0 (2 * window_size_ l + 1)); [lia|].
    simpl. split; [split; auto|reflexivity].
Qed.

Lemma AddData_rejects_short_witness :
  window_fits (window_size_ fox_loader) /\
  AddData "a b" fox_loader = (false, fox_loader).
Proof.
  assert (Hw : window_fits (window_size_ fox_loader))
    by (split; vm_compute; congruence).
  split; [exact Hw|].
  destruct (AddData_rejects_short "a b" fox_loader Hw) as [Hiff Hsame].
  assert (Hf : fst (AddData "a b" fox_loader) = false).
  { apply Hiff. vm_compute. reflexivity. }
  specialize (Hsame Hf).
  destruct (AddData "a b" fox_loader) as [b l']. simpl in *. subst. reflexivity.
Defined.

(** C4 as stated fails for a window size of [2^63]: the test compares the
    token count with [(2*window_size + 1) mod 2^64 = 1], so a string of
    three tokens, fewer than [2*window_size + 1], is stored and [AddData]
    returns true. *)
Lemma AddData_wraps_counterexample :
  fst (AddData "a b c" (CBOWLoader_new (2 ^ 63))) = true /\
  len (PreprocessString "a b c")
    < 2 * window_size_ (CBOWLoader_new (2 ^ 63)) + 1.
Proof. split; vm_compute; reflexivity. Qed.

(** C7. After any sequence of [AddData] calls on a new loader, the
    vocabulary maps each word of the ingested token stream to one entry:
    no word has two entries, the indices are exactly [0 .. N-1] with [N]
    the number of distinct words, the index of a word is the number of
    distinct words that came before its first occurrence (the size of the
    vocabulary when it was first seen), and its frequency is the number of
    its occurrences in the sentences that were stored. *)
Theorem vocabulary_during_ingestion (w : Z) (ss : list string) :
  window_fits w ->
  len (token_stream w ss) < 2 ^ 64 ->
  NoDup (keys (vocab_ (ingest ss (CBOWLoader_new w)))) /\
  indices (vocab_ (ingest ss (CBOWLoader_new w)))
    ≡ₚ seqZ 0 (VocabSize (ingest ss (CBOWLoader_new w))) /\
  VocabSize (ingest ss (CBOWLoader_new w))
    = len (remove_dups (token_stream w ss)) /\
  (forall word,
      word ∈ keys (vocab_ (ingest ss (CBOWLoader_new w)))
      <-> word ∈ token_stream w ss) /\
  (forall word i f,
      (word, (i, f)) ∈ vocab_ (ingest ss (CBOWLoader_new w)) ->
      f = occurrences (token_stream w ss) word /\
      exists pre post,
        token_stream w ss = pre ++ word :: post /\
        (word ∉ pre) /\
        i = len (remove_dups pre)).
Proof.
  intros Hw Hfit.
  destruct (ingest_new w ss Hw) as (_ & Hv & _).
  set (L := ingest ss (CBOWLoader_new w)) in *.
  set (tk := token_stream w ss) in *.
  pose proof (vocab_of_NoDup_keys _ _ Hv) as Hnd.
  pose proof Hv as (_ & Hperm & Hsize & Hfind).
  split; [exact Hnd|]. split; [exact Hperm|]. split; [exact Hsize|].
  split.
  - intros word. specialize (Hfind word). split.
    + intros Hk. destruct (decide (word ∈ tk)) as [Hin|Hnin]; [exact Hin|].
      exfalso. apply (map_find_keys word (vocab_ L) Hfind Hk).
    + intros Hin. destruct (decide (word ∈ tk)); [|contradiction].
      apply map_find_In in Hfind. unfold keys.
      apply list_elem_of_fmap. eexists. split; [|exact Hfind]. reflexivity.
  - intros word i f Hentry.
    apply (In_map_find _ _ _ Hnd) in Hentry.
    destruct (vocab_of_find_inv _ _ _ _ _ Hv Hentry) as (Hin & -> & ->).
    split.
    + pose proof (occurrences_le tk word). apply wrap64_small. lia.
    + destruct (before_split word tk Hin) as (post & Heq & Hnin).
      exists (before word tk), post. auto.
Qed.

Lemma vocabulary_during_ingestion_witness :
  window_fits 2 /\ len (token_stream 2 [fox_sentence]) < 2 ^ 64 /\
  forall i f,
    ("the"%string, (i, f)) ∈ vocab_ (ingest [fox_sentence] (CBOWLoader_new 2)) ->
    f = occurrences (token_stream 2 [fox_sentence]) "the".
Proof.
  assert (Hw : window_fits 2) by (split; vm_compute; congruence).
  assert (Hfit : len (token_stream 2 [fox_sentence]) < 2 ^ 64)
    by (vm_compute; reflexivity).
  split; [exact Hw|]. split; [exact Hfit|].
  intros i f H.
  exact (proj1 (proj2 (proj2 (proj2 (proj2
           (vocabulary_during_ingestion 2 [fox_sentence] Hw Hfit)))) _ i f H)).
Defined.

(** C9. In every reachable loader state, also after a pruning rebuild,
    [WordFromIndex] applied to the index of a vocabulary entry returns the
    word of that entry, and applied to an index that no entry carries it
    returns the empty string. *)
Theorem WordFromIndex_round_trip (w : Z) (l : CBOWLoader) :
  window_fits w ->
  reachable w l ->
  (forall word i f, (word, (i, f)) ∈ vocab_ l -> WordFromIndex i l = word) /\
  (forall i, i ∉ indices (vocab_ l) -> WordFromIndex i l = EmptyString).
Proof.
  intros Hw Hr.
  destruct (reachable_loader_of w l Hw Hr) as (tk & D & (_ & Hv & _)).
  split.
  - intros word i f Hentry. unfold WordFromIndex.
    eapply WordFromIndex_scan_In; [eapply vocab_of_NoDup_indices, Hv|exact Hentry].
  - intros i Hi. apply WordFromIndex_scan_absent, Hi.
Qed.

Lemma WordFromIndex_round_trip_witness :
  window_fits 2 /\ reachable 2 (RemoveInfrequent 1 fox_loader) /\
  WordFromIndex 2 (RemoveInfrequent 1 fox_loader) = "brown"%string.
Proof.
  assert (Hw : window_fits 2) by (split; vm_compute; congruence).
  assert (Hr : reachable 2 (RemoveInfrequent 1 fox_loader)).
  { apply reach_RemoveInfrequent.
    apply (reach_AddData 2 fox_sentence), reach_new. }
  split; [exact Hw|]. split; [exact Hr|].
  apply (proj1 (WordFromIndex_round_trip 2 _ Hw Hr) "brown"%string 2 1).
  vm_compute. left.
Defined.




(** C10. [RemoveInfrequent] leaves [sentence_index] and [word_index] (and
    the window size) as they were, whatever the state and the threshold;
    the cursor it keeps can then lie past the end of the smaller corpus. *)
Theorem RemoveInfrequent_keeps_cursor :
  (forall (min : Z) (l : CBOWLoader),
      currentSentence_ (RemoveInfrequent min l) = currentSentence_ l /\
      currentWord_ (RemoveInfrequent min l) = currentWord_ l /\
      window_size_ (RemoveInfrequent min l) = window_size_ l) /\
  (exists l l',
      pruned_to_nothing = Ok (l, l') /\
      currentSentence_ l < len (data_ l) /\
      len (data_ l') <= currentSentence_ l').
Proof.
  split.
  - intros min l. unfold RemoveInfrequent. simpl. auto.
  - eexists _, _. split; [vm_compute; reflexivity|].
    split; vm_compute; congruence.
Qed.

(** C2, as amended.  When [2*window_size + 1] fits in 64 bits: on a new
    loader into which sentences were ingested, [Size()] calls of
    [GetNext], each made while [IsDone()] is false, return the windows of
    the corpus one by one: sentence after sentence in ingestion order,
    centre positions left to right, no cursor position twice; the loader
    is done afterwards, and a stored sentence of length [L] contributes
    [L - 2*window_size] windows. *)
Theorem GetNext_enumerates_windows (w : Z) (ss : list string) :
  window_fits w ->
  corpus_fits (data_ (ingest ss (CBOWLoader_new w))) ->
  data_ (ingest ss (CBOWLoader_new w))
    = map (map (first_index (token_stream w ss))) (stored_sentences w ss) /\
  GetNext_run (Z.to_nat (Size (ingest ss (CBOWLoader_new w))))
              (ingest ss (CBOWLoader_new w))
    = Ok (corpus_windows w 0 (data_ (ingest ss (CBOWLoader_new w))),
          set_cursor (ingest ss (CBOWLoader_new w))
                     (len (data_ (ingest ss (CBOWLoader_new w)))) 0) /\
  IsDone (set_cursor (ingest ss (CBOWLoader_new w))
                     (len (data_ (ingest ss (CBOWLoader_new w)))) 0) = Ok true /\
  NoDup (map fst (corpus_windows w 0 (data_ (ingest ss (CBOWLoader_new w))))) /\
  Forall (fun s => 2 * w + 1 <= len s /\
                   forall i, len (sentence_windows w i s 0) = len s - 2 * w)
         (data_ (ingest ss (CBOWLoader_new w))).
Proof.
  intros Hw Hfit. pose proof Hw as [Hw0 Hw1].
  destruct (ingest_new w ss Hw) as (_ & _ & _ & _ & Hdata).
  destruct (ingest_frame ss (CBOWLoader_new w) Hw) as (Hcs & Hcw & HW & Hlong);
    [constructor|].
  set (L := ingest ss (CBOWLoader_new w)) in *. simpl in Hcs, Hcw, HW, Hlong.
  split; [exact Hdata|].
  split; [|split; [|split]].
  - assert (HS : Size L = total_windows w (data_ L)).
    { unfold Size. rewrite HW, Size_fold; [lia|exact Hw|lia|].
      unfold corpus_fits in Hfit. pose proof (len_nonneg (data_ L)). lia. }
    rewrite HS.
    assert (Hcase : data_ L = [] \/ exists s post, data_ L = s :: post)
      by (destruct (data_ L); eauto).
    destruct Hcase as [Hd|(s & post & Hd)].
    + rewrite Hd. simpl. do 2 f_equal.
      destruct L. simpl in *. subst. reflexivity.
    + rewrite Hd in Hlong. apply Forall_cons in Hlong as [Hs Hpost].
      rewrite (GetNext_run_from w _ Hw L [] s post HW);
        [ | exact Hfit | exact Hd | exact Hcs | lia | lia | exact Hpost | ].
      * rewrite Hcw, Hd. reflexivity.
      * rewrite Hcw, Hd. cbn [total_windows]. unfold windows_in. f_equal. lia.
  - apply IsDone_past_end. simpl. lia.
  - apply corpus_windows_NoDup.
  - eapply Forall_impl; [exact Hlong|]. intros s Hs. split; [exact Hs|].
    intros i. apply sentence_windows_length, Hs.
Qed.

Lemma GetNext_enumerates_windows_witness :
  window_fits 1 /\ corpus_fits (data_ two_sentences) /\
  GetNext_run (Z.to_nat (Size two_sentences)) two_sentences
    = Ok ([((0, 0), ([0; 2], 1)); ((1, 0), ([3; 5], 4));
           ((1, 1), ([4; 6], 5)); ((1, 2), ([5; 7], 6))],
          set_cursor two_sentences 2 0).
Proof.
  assert (Hw : window_fits 1) by (split; vm_compute; congruence).
  assert (Hfit : corpus_fits (data_ two_sentences)) by (vm_compute; reflexivity).
  split; [exact Hw|]. split; [exact Hfit|].
  exact (proj1 (proj2
           (GetNext_enumerates_windows 1 ["a b c"%string; "d e f g h"%string]
              Hw Hfit))).
Defined.

(** C2 as stated fails for a window size of [2^63]: the three-word
    sentence is stored and [Size()] is 3, [IsDone()] answers false, and
    the first [GetNext] reads position [2^63] of the sentence. *)
Lemma GetNext_scan_wraps_counterexample :
  Size wide_loader = 3 /\
  IsDone wide_loader = Ok false /\
  GetNext wide_loader = Fault OutOfBounds /\
  GetNext_run (Z.to_nat (Size wide_loader)) wide_loader = Fault OutOfBounds.
Proof.
  assert (E : wide_loader =
              {| currentSentence_ := 0; currentWord_ := 0;
                 window_size_ := 2 ^ 63;
                 vocab_ := [("a"%string, (0, 1)); ("b"%string, (1, 1));
                            ("c"%string, (2, 1))];
                 data_ := [[0; 1; 2]] |})
    by (vm_compute; reflexivity).
  assert (HS : Size wide_loader = 3) by (vm_compute; reflexivity).
  assert (HD : IsDone wide_loader = Ok false) by (vm_compute; reflexivity).
  assert (HG : GetNext wide_loader = Fault OutOfBounds).
  { rewrite E. unfold GetNext.
    cbn [currentSentence_ currentWord_ window_size_ data_].
    rewrite (index_lookup [[0; 1; 2]] 0 0%nat [0; 1; 2] eq_refl eq_refl).
    cbn [mbind result_bind].
    rewrite (index_past_end [0; 1; 2]) by (vm_compute; discriminate).
    reflexivity. }
  split; [exact HS|]. split; [exact HD|]. split; [exact HG|].
  rewrite HS. change (Z.to_nat 3) with 3%nat. cbn [GetNext_run].
  rewrite HD. cbn [mbind result_bind]. rewrite HG. reflexivity.
Qed.

(** C1, on a corpus of two sentences with one and three windows.  The
    scan yields four distinct windows.  After [SetOffset(1)] the cursor
    stands at word 1 of the three-word sentence and [GetNext] reads past
    its end; [SetOffset(2)] and [SetOffset(3)] both lead to the second
    window of the scan, so the third and fourth windows are reached by no
    offset. *)
Theorem SetOffset_misses_windows :
  Size two_sentences = 4 /\
  windows_of_run 4 two_sentences
    = Ok [([0; 2], 1); ([3; 5], 4); ([4; 6], 5); ([5; 7], 6)] /\
  window_after_offset 0 two_sentences = Ok ([0; 2], 1) /\
  window_after_offset 1 two_sentences = Fault OutOfBounds /\
  window_after_offset 2 two_sentences = Ok ([3; 5], 4) /\
  window_after_offset 3 two_sentences = Ok ([3; 5], 4).
Proof. repeat split; vm_compute; reflexivity. Qed.

(** C6, on a one-sentence corpus whose only window has been read: the
    corpus is not empty ([Size()] is 1), the cursor stands at sentence 1,
    and [SetOffset(0)] starts its walk there, one past the last sentence. *)
Theorem SetOffset_faults_after_scan :
  (l ← scanned_once; Ok (Size l, currentSentence_ l, len (data_ l)))
    = Ok (1, 1, 1) /\
  (l ← scanned_once; SetOffset 0 l) = Fault OutOfBounds.
Proof. split; vm_compute; reflexivity. Qed.

(** * Further properties of the code *)

(** X1. Every token [PreprocessString] returns is a non-empty word made of
    lowercase ASCII letters only, whatever the input string. *)
Theorem PreprocessString_lowercase_words (s : string) :
  Forall (fun t => t <> EmptyString /\ all_lower t = true) (PreprocessString s).
Proof. exact (PreprocessString_tokens s). Qed.

(** X2. Tokens written out one after the other, each followed by a space
    (the way [RemoveInfrequent] rebuilds a sentence), are read back by
    [PreprocessString] unchanged. *)
Theorem PreprocessString_reads_back (ws : list string) :
  Forall is_token ws -> PreprocessString (joined ws) = ws.
Proof. intros H. apply PreprocessString_joined, H. Qed.

Lemma PreprocessString_reads_back_witness :
  Forall is_token ["the"%string; "fox"%string] /\
  PreprocessString "the fox " = ["the"%string; "fox"%string].
Proof.
  assert (H : Forall is_token ["the"%string; "fox"%string]).
  { repeat constructor; discriminate. }
  split; [exact H|].
  exact (PreprocessString_reads_back ["the"%string; "fox"%string] H).
Defined.

(** X3. A string without any letter, the empty string included, has no
    token. *)
Theorem PreprocessString_no_letters (s : string) :
  no_letters s = true -> PreprocessString s = [].
Proof. intros H. unfold PreprocessString. apply extract_words_no_letters, H. Qed.

Lemma PreprocessString_no_letters_witness :
  no_letters "12, 34!" = true /\ PreprocessString "12, 34!" = [].
Proof.
  assert (H : no_letters "12, 34!" = true) by (vm_compute; reflexivity).
  split; [exact H|]. exact (PreprocessString_no_letters "12, 34!" H).
Defined.

(** X4. A character that is not a letter separates words: the tokens of
    [a ++ c ++ b] are the tokens of [a] followed by the tokens of [b]. *)
Theorem PreprocessString_separator (a b : string) (c : ascii) :
  isalpha c = false ->
  PreprocessString (a ++ String c b) = PreprocessString a ++ PreprocessString b.
Proof.
  intros Hc. unfold PreprocessString.
  rewrite normalise_app. cbn [normalise]. rewrite Hc.
  apply extract_words_separator.
Qed.

Lemma PreprocessString_separator_witness :
  isalpha "-" = false /\
  PreprocessString "lazy-dog" = PreprocessString "lazy" ++ PreprocessString "dog".
Proof.
  assert (H : isalpha "-" = false) by (vm_compute; reflexivity).
  split; [exact H|]. exact (PreprocessString_separator "lazy" "dog" "-" H).
Defined.

(** X5. [PreprocessString] ignores case: a string and its lowercased form
    have the same tokens. *)
Theorem PreprocessString_ignores_case (s : string) :
  PreprocessString (lowercase s) = PreprocessString s.
Proof. unfold PreprocessString. rewrite normalise_lowercase. reflexivity. Qed.

(** X6. [IsDone] never throws: the checked [data_.at(currentSentence_)] is
    only reached with [currentSentence_] below the number of sentences. *)
Theorem IsDone_never_throws (l : CBOWLoader) :
  0 <= currentSentence_ l -> exists b, IsDone l = Ok b.
Proof.
  intros Hcs. unfold IsDone.
  destruct (len (data_ l) =? 0); [eauto|].
  destruct (Z.geb_spec (currentSentence_ l) (len (data_ l))) as [|Hlt]; [eauto|].
  destruct (currentSentence_ l >=? wrap64 (len (data_ l) - 1)); [|eauto].
  unfold at_.
  destruct (lookup_lt_is_Some_2 (data_ l) (Z.to_nat (currentSentence_ l)))
    as [s Hs]; [unfold len in Hlt; lia|].
  rewrite Hs. cbn [mbind result_bind].
  match goal with |- context [if ?c then _ else _] => destruct c end; eauto.
Qed.

Lemma IsDone_never_throws_witness :
  0 <= currentSentence_ scanned_loader /\
  exists b, IsDone scanned_loader = Ok b.
Proof.
  assert (H : 0 <= currentSentence_ scanned_loader) by (vm_compute; congruence).
  split; [exact H|]. exact (IsDone_never_throws scanned_loader H).
Defined.

(** X7. When [IsDone] answers true, [GetNext] returns no pair: it reads
    outside the corpus (past the last sentence, or past the end of the last
    sentence), which is undefined behaviour in the source. *)
Theorem GetNext_when_done (l : CBOWLoader) :
  window_fits (window_size_ l) ->
  corpus_fits (data_ l) ->
  0 <= currentSentence_ l ->
  0 <= currentWord_ l ->
  currentWord_ l + 2 * window_size_ l + 1 < 2 ^ 64 ->
  IsDone l = Ok true ->
  GetNext l = Fault OutOfBounds.
Proof.
  intros Hw Hfit Hcs Hcw Hroom Hdone. pose proof Hw as [Hw0 Hw1].
  assert (Hpast : len (data_ l) <= currentSentence_ l -> GetNext l = Fault OutOfBounds).
  { intros H. unfold GetNext. rewrite index_past_end by exact H. reflexivity. }
  unfold IsDone in Hdone.
  destruct (Z.eqb_spec (len (data_ l)) 0) as [Hz|_]; [apply Hpast; lia|].
  destruct (Z.geb_spec (currentSentence_ l) (len (data_ l))) as [Hge|Hlt];
    [apply Hpast; lia|].
  destruct (currentSentence_ l >=? wrap64 (len (data_ l) - 1)); [|discriminate].
  unfold at_ in Hdone.
  destruct (data_ l !! Z.to_nat (currentSentence_ l)) as [s|] eqn:Hs;
    cbn [mbind result_bind] in Hdone; [|discriminate].
  apply (GetNext_no_room l s Hw Hcs Hs Hcw Hroom).
  pose proof (lookup_len_concat _ _ _ Hs) as Hls.
  pose proof (len_nonneg s) as Hs0.
  pose proof (len_nonneg (data_ l)) as Hd0.
  unfold corpus_fits in Hfit.
  rewrite (wrap64_small (2 * window_size_ l)) in Hdone by lia.
  rewrite (wrap64_small (2 * window_size_ l + 1)) in Hdone by lia.
  destruct (Z.le_gt_cases (2 * window_size_ l + 1) (len s)) as [Hlong|Hshort];
    [|lia].
  rewrite wrap64_small in Hdone by lia.
  destruct (Z.gtb_spec (currentWord_ l) (len s - (2 * window_size_ l + 1)));
    [lia|discriminate].
Qed.

Lemma GetNext_when_done_witness :
  window_fits (window_size_ scanned_loader) /\
  corpus_fits (data_ scanned_loader) /\
  IsDone scanned_loader = Ok true /\
  GetNext scanned_loader = Fault OutOfBounds.
Proof.
  assert (Hw : window_fits (window_size_ scanned_loader))
    by (split; vm_compute; congruence).
  assert (Hfit : corpus_fits (data_ scanned_loader)) by (vm_compute; reflexivity).
  assert (Hdone : IsDone scanned_loader = Ok true) by (vm_compute; reflexivity).
  split; [exact Hw|]. split; [exact Hfit|]. split; [exact Hdone|].
  apply (GetNext_when_done scanned_loader Hw Hfit); try exact Hdone;
    vm_compute; congruence.
Defined.

(** X8. In the last sentence [IsDone] is exact: when it answers false
    there, the cursor points at a window (and [GetNext] returns it). *)
Theorem IsDone_false_in_last_sentence (l : CBOWLoader) :
  window_fits (window_size_ l) ->
  corpus_fits (data_ l) ->
  sentences_long (window_size_ l) (data_ l) ->
  0 <= currentWord_ l ->
  currentSentence_ l = len (data_ l) - 1 ->
  IsDone l = Ok false ->
  exists s, at_window l s.
Proof.
  intros Hw Hfit Hlong Hcw Hcs Hdone. pose proof Hw as [Hw0 Hw1].
  pose proof (len_nonneg (data_ l)) as Hd0.
  unfold corpus_fits in Hfit. pose proof (len_nonneg (concat (data_ l))) as Hc0.
  unfold IsDone in Hdone.
  destruct (Z.eqb_spec (len (data_ l)) 0) as [|Hne]; [discriminate|].
  destruct (Z.geb_spec (currentSentence_ l) (len (data_ l))); [discriminate|].
  rewrite (wrap64_small (len (data_ l) - 1)) in Hdone by lia.
  destruct (Z.geb_spec (currentSentence_ l) (len (data_ l) - 1)); [|lia].
  unfold at_ in Hdone.
  destruct (data_ l !! Z.to_nat (currentSentence_ l)) as [s|] eqn:Hs;
    cbn [mbind result_bind] in Hdone; [|discriminate].
  exists s.
  assert (Hin : s ∈ data_ l) by (apply list_elem_of_lookup; eauto).
  unfold sentences_long in Hlong. rewrite Forall_forall in Hlong.
  specialize (Hlong s Hin).
  pose proof (lookup_len_concat _ _ _ Hs) as Hls.
  rewrite (wrap64_small (2 * window_size_ l)) in Hdone by lia.
  rewrite (wrap64_small (2 * window_size_ l + 1)) in Hdone by lia.
  rewrite wrap64_small in Hdone by lia.
  destruct (Z.gtb_spec (currentWord_ l) (len s - (2 * window_size_ l + 1)));
    [discriminate|].
  repeat split; [lia|exact Hs|exact Hcw|lia].
Qed.

Lemma IsDone_false_in_last_sentence_witness :
  window_fits (window_size_ fox_loader) /\
  corpus_fits (data_ fox_loader) /\
  sentences_long (window_size_ fox_loader) (data_ fox_loader) /\
  IsDone fox_loader = Ok false /\
  exists s, at_window fox_loader s.
Proof.
  assert (Hw : window_fits (window_size_ fox_loader))
    by (split; vm_compute; congruence).
  assert (Hfit : corpus_fits (data_ fox_loader)) by (vm_compute; reflexivity).
  assert (Hlong : sentences_long (window_size_ fox_loader) (data_ fox_loader)).
  { repeat constructor. vm_compute. congruence. }
  assert (Hdone : IsDone fox_loader = Ok false) by (vm_compute; reflexivity).
  split; [exact Hw|]. split; [exact Hfit|]. split; [exact Hlong|].
  split; [exact Hdone|].
  apply (IsDone_false_in_last_sentence fox_loader Hw Hfit Hlong); try exact Hdone;
    vm_compute; congruence.
Defined.

(** X9. In every reachable state each stored sentence yields at least one
    window: [Size()] is at least the number of sentences, so it is zero
    only for an empty corpus. *)
Theorem Size_at_least_sentences (w : Z) (l : CBOWLoader) :
  window_fits w ->
  reachable w l ->
  corpus_fits (data_ l) ->
  len (data_ l) <= Size l /\ (Size l = 0 <-> data_ l = []).
Proof.
  intros Hw Hr Hfit.
  destruct (reachable_long w l Hw Hr) as [HW Hlong].
  rewrite <- HW in Hw, Hlong.
  rewrite (Size_total l Hw Hfit).
  pose proof (total_windows_long _ _ Hlong) as Hle.
  split; [exact Hle|]. split.
  - intros Hz. destruct (data_ l) as [|s d]; [reflexivity|].
    rewrite len_cons in Hle. pose proof (len_nonneg d). lia.
  - intros ->. reflexivity.
Qed.

Lemma Size_at_least_sentences_witness :
  window_fits 1 /\ reachable 1 two_sentences /\
  corpus_fits (data_ two_sentences) /\
  len (data_ two_sentences) <= Size two_sentences.
Proof.
  assert (Hw : window_fits 1) by (split; vm_compute; congruence).
  assert (Hr : reachable 1 two_sentences).
  { apply (reach_AddData 1 "d e f g h").
    apply (reach_AddData 1 "a b c"), reach_new. }
  assert (Hfit : corpus_fits (data_ two_sentences)) by (vm_compute; reflexivity).
  split; [exact Hw|]. split; [exact Hr|]. split; [exact Hfit|].
  exact (proj1 (Size_at_least_sentences 1 two_sentences Hw Hr Hfit)).
Defined.

(** X10. On a reachable loader [SetOffset] divides by zero (undefined
    behaviour of [offset % Size()]) exactly when no sentence is stored. *)
Theorem SetOffset_divides_by_zero_iff_empty (w offset : Z) (l : CBOWLoader) :
  window_fits w ->
  reachable w l ->
  corpus_fits (data_ l) ->
  (SetOffset offset l = Fault DivisionByZero <-> data_ l = []).
Proof.
  intros Hw Hr Hfit.
  destruct (reachable_long w l Hw Hr) as [HW Hlong].
  rewrite <- HW in Hw, Hlong.
  pose proof (Size_total l Hw Hfit) as HS.
  pose proof (total_windows_long _ _ Hlong) as Hle.
  split.
  - intros Hf. unfold SetOffset in Hf.
    destruct (Z.eqb_spec (Size l) 0) as [Hz|_].
    + destruct (data_ l) as [|s d]; [reflexivity|].
      rewrite len_cons in Hle. pose proof (len_nonneg d). lia.
    + destruct (SetOffset_walk _ _ _ _) as [[o cs]|f] eqn:Hwalk;
        cbn [mbind result_bind] in Hf.
      * destruct (index (data_ l) cs) as [s|f] eqn:Hs;
          cbn [mbind result_bind] in Hf.
        -- destruct (o <? _); discriminate.
        -- apply index_fault in Hs. subst f. discriminate.
      * apply SetOffset_walk_faults in Hwalk. inversion Hf. subst f.
        destruct Hwalk; discriminate.
  - intros Hd. unfold SetOffset, Size. rewrite Hd. reflexivity.
Qed.

Lemma SetOffset_divides_by_zero_iff_empty_witness :
  window_fits 2 /\ reachable 2 (CBOWLoader_new 2) /\
  corpus_fits (data_ (CBOWLoader_new 2)) /\
  SetOffset 5 (CBOWLoader_new 2) = Fault DivisionByZero.
Proof.
  assert (Hw : window_fits 2) by (split; vm_compute; congruence).
  assert (Hr : reachable 2 (CBOWLoader_new 2)) by apply reach_new.
  assert (Hfit : corpus_fits (data_ (CBOWLoader_new 2)))
    by (vm_compute; reflexivity).
  split; [exact Hw|]. split; [exact Hr|]. split; [exact Hfit|].
  apply (SetOffset_divides_by_zero_iff_empty 2 5 _ Hw Hr Hfit). reflexivity.
Defined.

(** X11. With the cursor in the first sentence, an offset that reduces
    (modulo [Size()]) to a window of the first sentence is handled
    correctly: [SetOffset] returns with the cursor at that window, and the
    next [GetNext] returns the window the scan yields at that position. *)
Theorem SetOffset_within_first_sentence (offset : Z) (l : CBOWLoader)
        (s0 : list Z) (rest : list (list Z)) :
  window_fits (window_size_ l) ->
  corpus_fits (data_ l) ->
  currentSentence_ l = 0 ->
  data_ l = s0 :: rest ->
  wrap32 offset mod Size l < len s0 - 2 * window_size_ l ->
  SetOffset offset l = Ok (set_cursor l 0 (wrap32 offset mod Size l)) /\
  window_after_offset offset l
    = Ok (window_at (window_size_ l) s0 (wrap32 offset mod Size l)) /\
  corpus_windows (window_size_ l) 0 (data_ l)
    !! Z.to_nat (wrap32 offset mod Size l)
    = Some ((0, wrap32 offset mod Size l),
            window_at (window_size_ l) s0 (wrap32 offset mod Size l)).
Proof.
  intros Hw Hfit Hcs Hd Hr.
  pose proof (SetOffset_first_sentence offset l s0 rest Hw Hfit Hcs Hd Hr) as Hset.
  set (r := wrap32 offset mod Size l) in *.
  assert (Hr0 : 0 <= r).
  { unfold r. destruct (Z.eq_dec (Size l) 0) as [E|E].
    - rewrite E, Z.mod_0_r. unfold wrap32. apply Z.mod_pos_bound. lia.
    - pose proof (Size_total l Hw Hfit) as HS.
      pose proof (total_windows_bounds (window_size_ l) (data_ l) (proj1 Hw)).
      apply Z.mod_pos_bound. lia. }
  split; [exact Hset|]. split.
  - unfold window_after_offset. rewrite Hset. cbn [mbind result_bind].
    rewrite (GetNext_window_eq (set_cursor l 0 r) s0); [reflexivity|exact Hw|exact Hfit|].
    repeat split; simpl; [lia|rewrite Hd; reflexivity|exact Hr0|lia].
  - rewrite Hd. cbn [corpus_windows].
    rewrite lookup_app_l.
    + unfold sentence_windows. rewrite list_lookup_fmap.
      rewrite (lookup_seqZ_lt 0 (len s0 - 2 * window_size_ l - 0)) by lia.
      simpl. rewrite Z2Nat.id by lia. reflexivity.
    + unfold sentence_windows. rewrite length_map, length_seqZ. lia.
Qed.

Lemma SetOffset_within_first_sentence_witness :
  window_fits (window_size_ fox_loader) /\ corpus_fits (data_ fox_loader) /\
  wrap32 13 mod Size fox_loader < 9 - 2 * window_size_ fox_loader /\
  SetOffset 13 fox_loader = Ok (set_cursor fox_loader 0 3).
Proof.
  assert (Hw : window_fits (window_size_ fox_loader))
    by (split; vm_compute; congruence).
  assert (Hfit : corpus_fits (data_ fox_loader)) by (vm_compute; reflexivity).
  assert (Hr : wrap32 13 mod Size fox_loader
               < len [0; 1; 2; 3; 4; 5; 0; 6; 7] - 2 * window_size_ fox_loader)
    by (vm_compute; reflexivity).
  split; [exact Hw|]. split; [exact Hfit|]. split; [exact Hr|].
  exact (proj1 (SetOffset_within_first_sentence 13 fox_loader
                  [0; 1; 2; 3; 4; 5; 0; 6; 7] [] Hw Hfit eq_refl eq_refl Hr)).
Defined.

(** X12. [Reset] changes the order of the sentences only: [Size()], the
    number of sentences, the vocabulary and the window size are as before,
    and the cursor is back at the first word of the first sentence. *)
Theorem Reset_keeps_content (l l' : CBOWLoader) :
  Reset l l' ->
  Size l' = Size l /\
  len (data_ l') = len (data_ l) /\
  vocab_ l' = vocab_ l /\
  window_size_ l' = window_size_ l /\
  currentSentence_ l' = 0 /\ currentWord_ l' = 0.
Proof.
  intros [Hperm Heq].
  assert (HW : window_size_ l' = window_size_ l) by (rewrite Heq; reflexivity).
  split.
  - unfold Size. rewrite HW. symmetry. apply Size_fold_perm, Hperm.
  - split; [unfold len; rewrite (Permutation_length Hperm); reflexivity|].
    rewrite Heq. simpl. auto.
Qed.

Lemma Reset_keeps_content_witness :
  Reset two_sentences two_sentences_shuffled /\
  Size two_sentences_shuffled = Size two_sentences.
Proof.
  assert (H : Reset two_sentences two_sentences_shuffled).
  { split; [apply Permutation_rev|reflexivity]. }
  split; [exact H|].
  exact (proj1 (Reset_keeps_content two_sentences two_sentences_shuffled H)).
Defined.

(** X13. When [2*window_size + 1] fits in 64 bits: after [Reset] on a
    reachable loader, [Size()] calls of [GetNext], each made while
    [IsDone()] is false, return every window of the corpus in its new
    order, sentence after sentence and left to right, and leave the cursor
    past the last sentence. *)
Theorem scan_after_Reset (w : Z) (l l' : CBOWLoader) :
  window_fits w ->
  reachable w l ->
  Reset l l' ->
  corpus_fits (data_ l') ->
  GetNext_run (Z.to_nat (Size l')) l'
  = Ok (corpus_windows w 0 (data_ l'), set_cursor l' (len (data_ l')) 0).
Proof.
  intros Hw Hr Hreset Hfit.
  destruct (reachable_long w l' Hw (reach_Reset w l l' Hr Hreset)) as [HW Hlong].
  destruct Hreset as [_ Heq].
  apply scan_from_start; try assumption; rewrite Heq; reflexivity.
Qed.

Lemma scan_after_Reset_witness :
  window_fits 1 /\ reachable 1 two_sentences /\
  Reset two_sentences two_sentences_shuffled /\
  corpus_fits (data_ two_sentences_shuffled) /\
  windows_of_run 4 two_sentences_shuffled
  = Ok [([3; 5], 4); ([4; 6], 5); ([5; 7], 6); ([0; 2], 1)].
Proof.
  assert (Hw : window_fits 1) by (split; vm_compute; congruence).
  assert (Hr : reachable 1 two_sentences).
  { apply (reach_AddData 1 "d e f g h").
    apply (reach_AddData 1 "a b c"), reach_new. }
  assert (H : Reset two_sentences two_sentences_shuffled).
  { split; [apply Permutation_rev|reflexivity]. }
  assert (Hfit : corpus_fits (data_ two_sentences_shuffled))
    by (vm_compute; reflexivity).
  split; [exact Hw|]. split; [exact Hr|]. split; [exact H|].
  split; [exact Hfit|].
  unfold windows_of_run.
  change 4%nat with (Z.to_nat (Size two_sentences_shuffled)).
  rewrite (scan_after_Reset 1 two_sentences two_sentences_shuffled Hw Hr H Hfit).
  vm_compute. reflexivity.
Defined.

(** X14. In every reachable state each index stored in the corpus is the
    index of a vocabulary entry: it lies in [0, VocabSize()) and
    [WordFromIndex] turns it into a non-empty lowercase word. *)
Theorem stored_indices_valid (w : Z) (l : CBOWLoader) :
  window_fits w ->
  reachable w l ->
  Forall (Forall (fun i => 0 <= i < VocabSize l /\ is_token (WordFromIndex i l)))
         (data_ l).
Proof.
  intros Hw Hr.
  destruct (reachable_loader_of w l Hw Hr) as (tk & D & Hl).
  pose proof Hl as (_ & Hv & Htk & HD & Hdata).
  rewrite Hdata. apply Forall_fmap.
  eapply Forall_impl; [exact HD|]. intros ws [_ Hws]. simpl.
  apply Forall_fmap. eapply Forall_impl; [exact Hws|]. intros x Hx. simpl.
  split; [exact (vocab_of_index_range _ _ _ Hv Hx)|].
  unfold WordFromIndex.
  rewrite (WordFromIndex_scan_In x _ _ (vocab_ l)
             (vocab_of_NoDup_indices _ _ Hv) (vocab_of_entry _ _ _ Hv Hx)).
  rewrite Forall_forall in Htk. exact (Htk x Hx).
Qed.

Lemma stored_indices_valid_witness :
  window_fits 2 /\ reachable 2 fox_loader /\
  Forall (Forall (fun i => 0 <= i < VocabSize fox_loader /\
                           is_token (WordFromIndex i fox_loader)))
         (data_ fox_loader).
Proof.
  assert (Hw : window_fits 2) by (split; vm_compute; congruence).
  assert (Hr : reachable 2 fox_loader)
    by (apply (reach_AddData 2 fox_sentence), reach_new).
  split; [exact Hw|]. split; [exact Hr|].
  exact (stored_indices_valid 2 fox_loader Hw Hr).
Defined.

(** X15. In every reachable state the vocabulary is a map in strictly
    increasing key order whose keys are non-empty lowercase words and
    whose indices are exactly [0 .. VocabSize()-1]; so [WordFromIndex]
    returns the empty string exactly for the indices outside that range. *)
Theorem vocabulary_shape (w : Z) (l : CBOWLoader) :
  window_fits w ->
  reachable w l ->
  sorted_map (GetVocab l) /\
  Forall is_token (keys (GetVocab l)) /\
  indices (GetVocab l) ≡ₚ seqZ 0 (VocabSize l) /\
  (forall i, WordFromIndex i l = EmptyString <-> ~ (0 <= i < VocabSize l)).
Proof.
  intros Hw Hr. unfold GetVocab.
  destruct (reachable_loader_of w l Hw Hr) as (tk & D & Hl).
  pose proof Hl as (_ & Hv & Htk & _).
  pose proof Hv as (Hsort & Hperm & _).
  assert (Hkeys : Forall is_token (keys (vocab_ l))).
  { apply Forall_forall. intros k Hk. rewrite Forall_forall in Htk.
    apply Htk. exact (vocab_of_key_in _ _ _ Hv Hk). }
  split; [exact Hsort|]. split; [exact Hkeys|]. split; [exact Hperm|].
  intros i. split.
  - intros Hempty Hrange.
    assert (Hi : i ∈ indices (vocab_ l)).
    { rewrite Hperm. apply elem_of_seqZ. unfold VocabSize in Hrange. lia. }
    destruct (indices_entry _ _ Hi) as (k & f & Hentry).
    unfold WordFromIndex in Hempty.
    rewrite (WordFromIndex_scan_In k i f _ (vocab_of_NoDup_indices _ _ Hv) Hentry)
      in Hempty.
    rewrite Forall_forall in Hkeys.
    assert (Hk : k ∈ keys (vocab_ l)).
    { unfold keys. apply list_elem_of_fmap. eexists. split; [|exact Hentry].
      reflexivity. }
    destruct (Hkeys k Hk) as [Hne _]. contradiction.
  - intros Hout. apply WordFromIndex_scan_absent.
    rewrite Hperm. intros Hi. apply elem_of_seqZ in Hi.
    apply Hout. unfold VocabSize. lia.
Qed.

Lemma vocabulary_shape_witness :
  window_fits 2 /\ reachable 2 fox_loader /\
  WordFromIndex 8 fox_loader = EmptyString.
Proof.
  assert (Hw : window_fits 2) by (split; vm_compute; congruence).
  assert (Hr : reachable 2 fox_loader)
    by (apply (reach_AddData 2 fox_sentence), reach_new).
  split; [exact Hw|]. split; [exact Hr|].
  apply (proj2 (proj2 (proj2 (vocabulary_shape 2 fox_loader Hw Hr)))).
  vm_compute. intros [_ H]. discriminate H.
Defined.

(** X16. In every reachable state the frequency of a word is the number
    of times its index is stored in the corpus, and it is at least 1: the
    vocabulary holds no word that the corpus does not use. *)
Theorem frequency_counts_corpus (w : Z) (l : CBOWLoader) :
  window_fits w ->
  reachable w l ->
  corpus_fits (data_ l) ->
  forall word i f,
    (word, (i, f)) ∈ vocab_ l -> f = index_count l i /\ 1 <= f.
Proof.
  intros Hw Hr Hfit word i f Hentry.
  destruct (reachable_loader_exact w l Hw Hr) as (tk & D & Hl & Hp).
  pose proof Hl as (_ & Hv & _ & _ & Hdata).
  destruct (vocab_of_entry_inv _ _ _ _ _ Hv Hentry) as (Hin & -> & ->).
  pose proof (loader_of_words_in _ _ _ _ Hl) as Hwords.
  assert (Hcount : index_count l (first_index tk word) = occurrences tk word).
  { unfold index_count. rewrite Hdata, concat_encoded.
    rewrite (count_occ_encoded (vocab_ l) tk (concat D) word Hv Hin
               (Forall_concat_in _ _ Hwords)).
    symmetry. apply occurrences_perm. symmetry. exact Hp. }
  assert (Hlen : len tk = len (concat (data_ l))).
  { rewrite Hdata, concat_encoded. unfold len.
    rewrite length_map, (Permutation_length Hp). reflexivity. }
  pose proof (occurrences_le tk word) as Hle.
  pose proof (occurrences_pos tk word Hin) as Hpos.
  unfold corpus_fits in Hfit. pose proof (len_nonneg (data_ l)).
  rewrite wrap64_small by lia. rewrite Hcount. lia.
Qed.

Lemma frequency_counts_corpus_witness :
  window_fits 2 /\ reachable 2 fox_loader /\ corpus_fits (data_ fox_loader) /\
  2 = index_count fox_loader 0.
Proof.
  assert (Hw : window_fits 2) by (split; vm_compute; congruence).
  assert (Hr : reachable 2 fox_loader)
    by (apply (reach_AddData 2 fox_sentence), reach_new).
  assert (Hfit : corpus_fits (data_ fox_loader)) by (vm_compute; reflexivity).
  split; [exact Hw|]. split; [exact Hr|]. split; [exact Hfit|].
  apply (frequency_counts_corpus 2 fox_loader Hw Hr Hfit "the"%string 0 2).
  vm_compute. do 7 right. left.
Defined.

(** X17. [AddData] on a reachable loader, for a string with at least
    [2*window_size + 1] tokens: it returns true and appends one sentence,
    which reads back through [WordFromIndex] as the tokens of the string;
    the sentences stored before read back as before; and a word already
    in the vocabulary keeps its index, its frequency going up by the
    number of its occurrences among the new tokens. *)
Theorem AddData_stores_sentence (w : Z) (s : string) (l : CBOWLoader) :
  window_fits w ->
  reachable w l ->
  2 * w + 1 <= len (PreprocessString s) ->
  fst (AddData s l) = true /\
  (exists idx,
      data_ (snd (AddData s l)) = data_ l ++ [idx] /\
      sentence_words (snd (AddData s l)) idx = PreprocessString s) /\
  map (sentence_words (snd (AddData s l))) (data_ l)
    = map (sentence_words l) (data_ l) /\
  (forall word i f,
      (word, (i, f)) ∈ vocab_ l ->
      (word, (i, wrap64 (f + occurrences (PreprocessString s) word)))
        ∈ vocab_ (snd (AddData s l))).
Proof.
  intros Hw Hr Hlen.
  destruct (reachable_loader_of w l Hw Hr) as (tk & D & Hl).
  pose proof (AddData_spec w s l tk D Hw Hl) as Hadd. simpl in Hadd.
  assert (Hacc : accepted w (PreprocessString s) = true)
    by (unfold accepted; apply Z.leb_le; exact Hlen).
  rewrite Hacc in Hadd. destruct Hadd as (m' & Heq & Hl').
  pose proof (loader_of_decode _ _ _ _ Hl) as Hdec.
  pose proof (loader_of_decode _ _ _ _ Hl') as Hdec'.
  rewrite Heq in *. cbn [fst snd] in *. cbn [data_ set_corpus] in Hdec'.
  rewrite map_app in Hdec'. cbn [map] in Hdec'.
  apply app_inj_tail in Hdec' as [Hold Hnew].
  split; [reflexivity|]. split; [|split].
  - eexists. split; [reflexivity|exact Hnew].
  - rewrite Hold, Hdec. reflexivity.
  - intros word i f Hentry.
    pose proof Hl as (_ & Hv & _). pose proof Hl' as (_ & Hv' & _).
    destruct (vocab_of_entry_inv _ _ _ _ _ Hv Hentry) as (Hin & -> & ->).
    assert (Hin' : word ∈ tk ++ PreprocessString s) by (apply elem_of_app; auto).
    pose proof (vocab_of_entry _ _ _ Hv' Hin') as Hentry'.
    rewrite first_index_app_in in Hentry' by exact Hin.
    rewrite occurrences_app in Hentry'.
    replace (wrap64 (wrap64 (occurrences tk word)
                     + occurrences (PreprocessString s) word))
      with (wrap64 (occurrences tk word + occurrences (PreprocessString s) word))
      by (unfold wrap64; rewrite Zplus_mod_idemp_l; reflexivity).
    exact Hentry'.
Qed.

Lemma AddData_stores_sentence_witness :
  window_fits 2 /\ reachable 2 fox_loader /\
  2 * 2 + 1 <= len (PreprocessString "The dog and the fox") /\
  ("the"%string, (0, 4)) ∈ vocab_ (snd (AddData "The dog and the fox" fox_loader)).
Proof.
  assert (Hw : window_fits 2) by (split; vm_compute; congruence).
  assert (Hr : reachable 2 fox_loader)
    by (apply (reach_AddData 2 fox_sentence), reach_new).
  assert (Hlen : 2 * 2 + 1 <= len (PreprocessString "The dog and the fox"))
    by (vm_compute; congruence).
  split; [exact Hw|]. split; [exact Hr|]. split; [exact Hlen|].
  apply (proj2 (proj2 (proj2
           (AddData_stores_sentence 2 "The dog and the fox" fox_loader Hw Hr Hlen)))
           "the"%string 0 2).
  vm_compute. do 7 right. left.
Defined.

(** X18. [AddData] never moves the cursor and never changes the window
    size, and the sentences stored before the call stay where they are:
    the corpus after the call is the old corpus, followed by at most one
    new sentence. *)
Theorem AddData_keeps_cursor (s : string) (l : CBOWLoader) :
  currentSentence_ (snd (AddData s l)) = currentSentence_ l /\
  currentWord_ (snd (AddData s l)) = currentWord_ l /\
  window_size_ (snd (AddData s l)) = window_size_ l /\
  exists added,
    data_ (snd (AddData s l)) = data_ l ++ added /\ (length added <= 1)%nat.
Proof.
  pose proof (AddData_frame s l) as (H1 & H2 & H3).
  split; [exact H1|]. split; [exact H2|]. split; [exact H3|].
  unfold AddData.
  pose proof (StringsToIndexes_frame (PreprocessString s) l) as H.
  destruct (StringsToIndexes (PreprocessString s) l) as [idx l1].
  simpl in H. destruct H as (_ & _ & _ & H4).
  destruct (len idx >=? _); simpl; rewrite H4.
  - exists [idx]. split; [reflexivity|simpl; lia].
  - exists []. rewrite app_nil_r. split; [reflexivity|simpl; lia].
Qed.

(** X19. [GetNext] and [SetOffset], when they return, have changed the
    cursor only: vocabulary, corpus and window size are untouched. *)
Theorem cursor_operations_keep_corpus (l l' : CBOWLoader) :
  (exists p, GetNext l = Ok (p, l')) \/ (exists offset, SetOffset offset l = Ok l') ->
  window_size_ l' = window_size_ l /\ vocab_ l' = vocab_ l /\ data_ l' = data_ l.
Proof.
  intros [[p H]|[o H]].
  - exact (GetNext_frame _ _ _ H).
  - exact (SetOffset_frame _ _ _ H).
Qed.

Lemma cursor_operations_keep_corpus_witness :
  GetNext fox_loader = Ok (([0; 1; 3; 4], 2), set_cursor fox_loader 0 1) /\
  data_ (set_cursor fox_loader 0 1) = data_ fox_loader.
Proof.
  assert (H : GetNext fox_loader = Ok (([0; 1; 3; 4], 2), set_cursor fox_loader 0 1))
    by (vm_compute; reflexivity).
  split; [exact H|].
  exact (proj2 (proj2 (cursor_operations_keep_corpus fox_loader _
                         (or_introl (ex_intro _ _ H))))).
Defined.

(** X20. [RemoveInfrequent(0)] on a reachable loader keeps the content:
    the corpus reads back as the same sentences of words, the vocabulary
    has the same size and holds the same words with the same frequencies
    (their indices may differ). *)
Theorem RemoveInfrequent_zero_keeps_content (w : Z) (l : CBOWLoader) :
  window_fits w ->
  reachable w l ->
  map (sentence_words (RemoveInfrequent 0 l)) (data_ (RemoveInfrequent 0 l))
    = map (sentence_words l) (data_ l) /\
  VocabSize (RemoveInfrequent 0 l) = VocabSize l /\
  (forall word f,
      (exists i, (word, (i, f)) ∈ vocab_ l) <->
      (exists i, (word, (i, f)) ∈ vocab_ (RemoveInfrequent 0 l))).
Proof.
  intros Hw Hr.
  destruct (reachable_loader_exact w l Hw Hr) as (tk & D & Hl & Hp).
  destruct (RemoveInfrequent_spec w 0 l tk D Hw Hl) as [_ Hl'].
  change (wrap32 0) with 0 in Hl'.
  assert (HX : map (kept tk 0) D = D).
  { rewrite <- (map_id D) at 2. apply map_ext. intros ws. apply kept_zero. }
  rewrite HX in Hl'.
  pose proof Hl as (_ & Hv & _ & HD & _).
  assert (HF : List.filter (accepted w) D = D).
  { apply filter_all. eapply Forall_impl; [exact HD|]. intros ws [H _]. exact H. }
  rewrite HF in Hl'.
  pose proof Hl' as (_ & Hv' & _).
  split; [|split].
  - rewrite (loader_of_decode _ _ _ _ Hl'), (loader_of_decode _ _ _ _ Hl).
    reflexivity.
  - unfold VocabSize.
    destruct Hv as (_ & _ & -> & _). destruct Hv' as (_ & _ & -> & _).
    apply distinct_perm. exact Hp.
  - intros word f. split; intros [i Hentry].
    + destruct (vocab_of_entry_inv _ _ _ _ _ Hv Hentry) as (Hin & _ & ->).
      rewrite <- Hp in Hin.
      eexists. rewrite <- (occurrences_perm _ _ word Hp).
      exact (vocab_of_entry _ _ _ Hv' Hin).
    + destruct (vocab_of_entry_inv _ _ _ _ _ Hv' Hentry) as (Hin & _ & ->).
      rewrite Hp in Hin.
      eexists. rewrite (occurrences_perm _ _ word Hp).
      exact (vocab_of_entry _ _ _ Hv Hin).
Qed.

Lemma RemoveInfrequent_zero_keeps_content_witness :
  window_fits 1 /\ reachable 1 two_sentences_shuffled /\
  VocabSize (RemoveInfrequent 0 two_sentences_shuffled)
  = VocabSize two_sentences_shuffled.
Proof.
  assert (Hw : window_fits 1) by (split; vm_compute; congruence).
  assert (Hr : reachable 1 two_sentences_shuffled).
  { apply (reach_Reset 1 two_sentences).
    - apply (reach_AddData 1 "d e f g h").
      apply (reach_AddData 1 "a b c"), reach_new.
    - split; [apply Permutation_rev|reflexivity]. }
  split; [exact Hw|]. split; [exact Hr|].
  exact (proj1 (proj2
           (RemoveInfrequent_zero_keeps_content 1 two_sentences_shuffled Hw Hr))).
Defined.

(** X21. [RemoveInfrequent] only shrinks a reachable loader: the
    vocabulary, the number of sentences and [Size()] do not grow; every
    word of the new vocabulary was in the old one with a frequency of at
    least [min], and its new frequency, counted over the sentences that
    are left, is at most the old one. *)
Theorem RemoveInfrequent_shrinks (w min : Z) (l : CBOWLoader) :
  window_fits w ->
  reachable w l ->
  corpus_fits (data_ l) ->
  0 <= min < 2 ^ 32 ->
  VocabSize (RemoveInfrequent min l) <= VocabSize l /\
  len (data_ (RemoveInfrequent min l)) <= len (data_ l) /\
  Size (RemoveInfrequent min l) <= Size l /\
  (forall word i' f',
      (word, (i', f')) ∈ vocab_ (RemoveInfrequent min l) ->
      exists i f, (word, (i, f)) ∈ vocab_ l /\ min <= f /\ f' <= f).
Proof.
  intros Hw Hr Hfit Hmin. pose proof Hw as [Hw0 Hw1].
  destruct (reachable_loader_exact w l Hw Hr) as (tk & D & Hl & Hp).
  destruct (RemoveInfrequent_spec w min l tk D Hw Hl) as [_ Hl'].
  rewrite (wrap32_small min Hmin) in Hl'.
  set (D' := List.filter (accepted w) (map (kept tk min) D)) in *.
  pose proof Hl as (HW & Hv & _ & _ & Hdata).
  pose proof Hl' as (HW' & Hv' & _ & _ & Hdata').
  assert (Hsub : forall x, x ∈ concat D' -> x ∈ tk /\ min <= wrap64 (occurrences tk x)).
  { intros x Hx. apply pruned_word_in in Hx as [Hx Hm].
    rewrite Hp in Hx. auto. }
  assert (Hlen_tk : len tk = len (concat (data_ l))).
  { rewrite Hdata, concat_encoded, len_map. unfold len.
    rewrite (Permutation_length Hp). reflexivity. }
  assert (Hlen_d : len (data_ l) = len D) by (rewrite Hdata; apply len_map).
  assert (Hlen_d' : len (data_ (RemoveInfrequent min l)) = len D')
    by (rewrite Hdata'; apply len_map).
  assert (Hlen_c' : len (concat (data_ (RemoveInfrequent min l))) = len (concat D'))
    by (rewrite Hdata', concat_encoded; apply len_map).
  pose proof (len_pruned_le w min tk D) as Hle_d. fold D' in Hle_d.
  pose proof (len_concat_pruned_le w min tk D) as Hle_c. fold D' in Hle_c.
  assert (Hlen_cD : len (concat D) = len tk)
    by (unfold len; rewrite (Permutation_length Hp); reflexivity).
  assert (Hfit' : corpus_fits (data_ (RemoveInfrequent min l))).
  { unfold corpus_fits in *. lia. }
  split; [|split; [|split]].
  - unfold VocabSize.
    destruct Hv as (_ & _ & -> & _). destruct Hv' as (_ & _ & -> & _).
    apply distinct_subset. intros x Hx. exact (proj1 (Hsub x Hx)).
  - lia.
  - rewrite (Size_total (RemoveInfrequent min l)), (Size_total l);
      [ | rewrite HW; exact Hw | exact Hfit | rewrite HW'; exact Hw | exact Hfit' ].
    rewrite HW, HW', Hdata, Hdata'.
    apply total_windows_pruned_le, Hw0.
  - intros word i' f' Hentry.
    destruct (vocab_of_entry_inv _ _ _ _ _ Hv' Hentry) as (Hin & _ & ->).
    destruct (Hsub word Hin) as [Hin_tk Hm].
    exists (first_index tk word), (wrap64 (occurrences tk word)).
    split; [exact (vocab_of_entry _ _ _ Hv Hin_tk)|]. split; [exact Hm|].
    pose proof (occurrences_le tk word).
    pose proof (occurrences_le (concat D') word).
    pose proof (occurrences_pruned_le w min tk D word) as Hocc. fold D' in Hocc.
    rewrite (occurrences_perm _ _ word Hp) in Hocc.
    unfold corpus_fits in Hfit. pose proof (len_nonneg (data_ l)).
    rewrite !wrap64_small by lia. exact Hocc.
Qed.

Lemma RemoveInfrequent_shrinks_witness :
  window_fits 2 /\ reachable 2 fox_loader /\ corpus_fits (data_ fox_loader) /\
  0 <= 2 < 2 ^ 32 /\
  Size (RemoveInfrequent 2 fox_loader) <= Size fox_loader.
Proof.
  assert (Hw : window_fits 2) by (split; vm_compute; congruence).
  assert (Hr : reachable 2 fox_loader)
    by (apply (reach_AddData 2 fox_sentence), reach_new).
  assert (Hfit : corpus_fits (data_ fox_loader)) by (vm_compute; reflexivity).
  assert (Hmin : 0 <= 2 < 2 ^ 32) by (split; vm_compute; congruence).
  split; [exact Hw|]. split; [exact Hr|]. split; [exact Hfit|].
  split; [exact Hmin|].
  exact (proj1 (proj2 (proj2
           (RemoveInfrequent_shrinks 2 2 fox_loader Hw Hr Hfit Hmin)))).
Defined.

(** X22. A rebuild without threshold of a loader whose corpus is still in
    ingestion order changes nothing at all, indices included: this holds
    right after ingestion into a new loader and right after any
    [RemoveInfrequent]. *)
Theorem RemoveInfrequent_zero_of_built (w min : Z) (ss : list string)
        (l : CBOWLoader) :
  window_fits w ->
  reachable w l ->
  RemoveInfrequent 0 (ingest ss (CBOWLoader_new w)) = ingest ss (CBOWLoader_new w) /\
  RemoveInfrequent 0 (RemoveInfrequent min l) = RemoveInfrequent min l.
Proof.
  intros Hw Hr. split.
  - apply (rebuild_of_built w _ (stored_sentences w ss) Hw).
    exact (ingest_new w ss Hw).
  - destruct (reachable_loader_of w l Hw Hr) as (tk & D & Hl).
    destruct (RemoveInfrequent_spec w min l tk D Hw Hl) as [_ Hl'].
    exact (rebuild_of_built w _ _ Hw Hl').
Qed.

Lemma RemoveInfrequent_zero_of_built_witness :
  window_fits 2 /\ reachable 2 fox_loader /\
  RemoveInfrequent 0 fox_loader = fox_loader.
Proof.
  assert (Hw : window_fits 2) by (split; vm_compute; congruence).
  assert (Hr : reachable 2 fox_loader)
    by (apply (reach_AddData 2 fox_sentence), reach_new).
  split; [exact Hw|]. split; [exact Hr|].
  exact (proj1 (RemoveInfrequent_zero_of_built 2 0 [fox_sentence] fox_loader Hw Hr)).
Defined.

(** X23. [AddData] on a reachable loader, for a string that is stored,
    makes [VocabSize()] grow by the number of distinct tokens of the string
    that were not yet in the vocabulary; it never shrinks. *)
Theorem AddData_grows_vocabulary (w : Z) (s : string) (l : CBOWLoader) :
  window_fits w ->
  reachable w l ->
  2 * w + 1 <= len (PreprocessString s) ->
  VocabSize (snd (AddData s l))
  = VocabSize l
    + len (remove_dups (filter (fun t => t ∉ keys (vocab_ l)) (PreprocessString s))).
Proof.
  intros Hw Hr Hlen.
  destruct (reachable_loader_of w l Hw Hr) as (tk & D & Hl).
  pose proof (AddData_spec w s l tk D Hw Hl) as Hadd. simpl in Hadd.
  assert (Hacc : accepted w (PreprocessString s) = true)
    by (unfold accepted; apply Z.leb_le; exact Hlen).
  rewrite Hacc in Hadd. destruct Hadd as (m' & _ & Hl').
  pose proof Hl as (_ & Hv & _). pose proof Hl' as (_ & Hv' & _).
  unfold VocabSize.
  destruct Hv as (Hs & Hperm & Hsize & Hfind).
  destruct Hv' as (_ & _ & -> & _). rewrite Hsize, distinct_app.
  do 3 f_equal. apply list_filter_iff. intros t.
  split; intros Hn Hin; apply Hn.
  - apply (vocab_of_key_in (vocab_ l) tk t); [|exact Hin].
    split; [exact Hs|]. split; [exact Hperm|]. split; [exact Hsize|exact Hfind].
  - specialize (Hfind t). destruct (decide (t ∈ tk)); [|contradiction].
    apply map_find_In in Hfind. unfold keys.
    apply list_elem_of_fmap. eexists. split; [|exact Hfind]. reflexivity.
Qed.

Lemma AddData_grows_vocabulary_witness :
  window_fits 2 /\ reachable 2 fox_loader /\
  2 * 2 + 1 <= len (PreprocessString "The dog and the fox") /\
  VocabSize (snd (AddData "The dog and the fox" fox_loader)) = 9.
Proof.
  assert (Hw : window_fits 2) by (split; vm_compute; congruence).
  assert (Hr : reachable 2 fox_loader)
    by (apply (reach_AddData 2 fox_sentence), reach_new).
  assert (Hlen : 2 * 2 + 1 <= len (PreprocessString "The dog and the fox"))
    by (vm_compute; congruence).
  split; [exact Hw|]. split; [exact Hr|]. split; [exact Hlen|].
  rewrite (AddData_grows_vocabulary 2 "The dog and the fox" fox_loader Hw Hr Hlen).
  vm_compute. reflexivity.
Defined.
